(** * ftree: an N-dimensional subdividing tree (quadtree / octree generalised)

    Shallow embedding of [ntree.go] and [point.go].

    - [float64] is Rocq's primitive binary64 [float]; Go's [a > b] is [b <? a].
    - [int] is a 64-bit two's complement integer, carried as [Z] with the
      wrap-around written out ([wrap_int]); [uint64] likewise ([wrap_uint64]).
    - A [*Point] is [option Point] ([None] is [nil]); a slice of node pointers
      is [option (list (option NTree))]: [None] is the nil slice, an inner
      [None] a nil entry.
    - In-place mutation of a node is a function from the node to the mutated
      node.  Every operation also yields the sequence of lock and counter
      events it performs, each tagged with the path of the node (child
      indices from the node the operation was called on).
    - [Add] recurses on the node itself after a split, so it takes fuel.
    - The platform is a 64-bit one and memory is not a limit: a slice of any
      length can be made.  One operation runs at a time. *)

From Stdlib Require Import Floats ZArith List Lia Bool String Permutation.
From Stdlib Require Import DecimalString PeanoNat.
Import ListNotations.

Local Open Scope string_scope.
Local Open Scope Z_scope.
Local Open Scope list_scope.

(** ** Machine integers *)

(** The value an [int] (signed, 64 bits) and a [uint64] hold after an
    operation whose exact result is [x]. *)
Definition wrap_int (x : Z) : Z := (x + 2 ^ 63) mod 2 ^ 64 - 2 ^ 63.
Definition wrap_uint64 (x : Z) : Z := x mod 2 ^ 64.

(** [const MaxN = 63] *)
Definition MaxN : nat := 63.

(** [mathutil.MaxInt] on a 64-bit platform, and [mathutil.ModPowUint64 b e m],
    which the library documents as [(b^e) mod m]; both come from the imported
    package [github.com/cznic/mathutil]. *)
Definition MaxInt : Z := 2 ^ 63 - 1.
Definition ModPowUint64 (b e m : Z) : Z := (b ^ e) mod m.

(** [strconv.FormatInt(int64(i), 10)] and [strconv.FormatUint(uint64(i), 10)]
    for a natural number. *)
Definition FormatUint (n : nat) : string := NilZero.string_of_uint (Nat.to_uint n).

(** ** Data model *)

(** An [error] is the message given to [errors.New]; [res A] is a Go result
    pair [(A, error)] of which exactly one side is set. *)
Definition error := string.

Inductive res (A : Type) : Type :=
| Ok (a : A)
| Error (e : error).
Arguments Ok {A} a.
Arguments Error {A} e.

(** [type Point struct { Coords []float64; Data *interface{} }]; the payload is
    an opaque handle. *)
Record Point : Type := mkPoint {
  Coords : list float;
  Data : option nat
}.

(** [sync.RWMutex], as one operation running alone sees it: free, or held
    exclusively.  A shared hold is always released by the deferred [RUnlock]
    of the method that took it. *)
Inductive RWMutex : Type := MuFree | MuWrite.

(** [type NTree struct], with [count uint64] carried as [Z]. *)
#[warnings="-register-all"]
Inductive NTree : Type := mkNTree {
  center : list float;
  bounds : list float;
  p : option Point;
  children : option (list (option NTree));
  mutex : RWMutex;
  count : Z
}.

(** Assignments to one field of a node. *)
Definition set_p (nt : NTree) (q : option Point) : NTree :=
  mkNTree (center nt) (bounds nt) q (children nt) (mutex nt) (count nt).
Definition set_children (nt : NTree) (cs : option (list (option NTree))) : NTree :=
  mkNTree (center nt) (bounds nt) (p nt) cs (mutex nt) (count nt).
Definition set_mutex (nt : NTree) (m : RWMutex) : NTree :=
  mkNTree (center nt) (bounds nt) (p nt) (children nt) m (count nt).
Definition set_count (nt : NTree) (n : Z) : NTree :=
  mkNTree (center nt) (bounds nt) (p nt) (children nt) (mutex nt) n.

(** ** Effects: event traces, panics, blocking, fuel *)

(** A node is named by the child indices that lead to it from the node the
    operation was called on. *)
Definition path := list nat.

(** What an operation does to the mutexes and counters of the nodes it
    touches; [EvCount pi old new] is a write of [new] over [old]. *)
Inductive event : Type :=
| EvRLock (pi : path)
| EvRUnlock (pi : path)
| EvLock (pi : path)
| EvUnlock (pi : path)
| EvCount (pi : path) (old new : Z).

Definition trace := list event.

(** The ways a call ends, each with the events performed so far: it returns
    [a]; it panics (nil dereference, index out of range); it waits for ever
    on a mutex that nobody will release; or the model's fuel is used up. *)
Inductive run (A : Type) : Type :=
| Done (tr : trace) (a : A)
| Panic (tr : trace) (msg : string)
| Blocked (tr : trace)
| OutOfFuel (tr : trace).
Arguments Done {A} tr a.
Arguments Panic {A} tr msg.
Arguments Blocked {A} tr.
Arguments OutOfFuel {A} tr.

(** Sequencing: the events of the first part come first, and a panic, a
    wait or exhaustion ends the whole call. *)
Definition ret {A : Type} (a : A) : run A := Done [] a.

Definition events {A : Type} (m : run A) : trace :=
  match m with
  | Done tr _ | Panic tr _ | Blocked tr | OutOfFuel tr => tr
  end.

Definition after {A : Type} (tr0 : trace) (m : run A) : run A :=
  match m with
  | Done tr a => Done (tr0 ++ tr) a
  | Panic tr msg => Panic (tr0 ++ tr) msg
  | Blocked tr => Blocked (tr0 ++ tr)
  | OutOfFuel tr => OutOfFuel (tr0 ++ tr)
  end.

Definition bind {A B : Type} (m : run A) (k : A -> run B) : run B :=
  match m with
  | Done tr a => after tr (k a)
  | Panic tr msg => Panic tr msg
  | Blocked tr => Blocked tr
  | OutOfFuel tr => OutOfFuel tr
  end.

Notation "x <- m ;; k" := (bind m (fun x => k))
  (at level 61, m at next level, right associativity).
Notation "m ;;; k" := (bind m (fun _ => k))
  (at level 61, right associativity).

Definition emit (e : event) : run unit := Done [e] tt.

(** The four methods of the node's mutex.  Taking a mutex that is held
    exclusively waits; with no other operation running the wait never ends.
    A read lock leaves no mark on the node: the method that takes it gives it
    back by its deferred [RUnlock] before it returns. *)
Definition RLock (pi : path) (nt : NTree) : run unit :=
  match mutex nt with
  | MuFree => emit (EvRLock pi)
  | MuWrite => Blocked []
  end.

Definition RUnlock (pi : path) : run unit := emit (EvRUnlock pi).

Definition Lock (pi : path) (nt : NTree) : run NTree :=
  match mutex nt with
  | MuFree => Done [EvLock pi] (set_mutex nt MuWrite)
  | MuWrite => Blocked []
  end.

Definition Unlock (pi : path) (nt : NTree) : run NTree :=
  Done [EvUnlock pi] (set_mutex nt MuFree).

(** [nt.count++] and [nt.count--] on a [uint64]. *)
Definition incr_count (pi : path) (nt : NTree) : run NTree :=
  let c := wrap_uint64 (count nt + 1) in
  Done [EvCount pi (count nt) c] (set_count nt c).

Definition decr_count (pi : path) (nt : NTree) : run NTree :=
  let c := wrap_uint64 (count nt - 1) in
  Done [EvCount pi (count nt) c] (set_count nt c).

(** ** ntree.go *)

(** First index [i] with [bounds[i] <= 0], counting from [i]. *)
Fixpoint first_nonpositive (i : nat) (bs : list float) : option nat :=
  match bs with
  | [] => None
  | b :: bs' => if (b <=? 0)%float then Some i else first_nonpositive (S i) bs'
  end.

Definition New (c b : list float) : res NTree :=
  if (MaxN <? List.length c)%nat then
    Error "64 bit ints limit this library to <= 63 dimensions"
  else if negb (List.length c =? List.length b)%nat then
    Error "center and bounds have mismatched lengths"
  else if (List.length c =? 0)%nat then
    Error "Can't have 0-dimensional ntree"
  else
    match first_nonpositive 0 b with
    | Some i =>
        Error (String.append "Dimension "
                 (String.append (FormatUint i) " has bounding size <= 0."))
    | None => Ok (mkNTree c b None None MuFree 0)
    end.

(** [N()], [Count()] and [BoundPoints()]. *)
Definition N (nt : NTree) : nat := List.length (center nt).

Definition Count (pi : path) (nt : NTree) : run Z :=
  RLock pi nt ;;; RUnlock pi ;;; ret (count nt).

(** [min[i] = center[i] - bounds[i]], [max[i] = center[i] + bounds[i]]. *)
Fixpoint corners (c b : list float) : run (list float * list float) :=
  match c with
  | [] => ret ([], [])
  | ci :: c' =>
      match b with
      | [] => Panic [] "index out of range"
      | bi :: b' =>
          r <- corners c' b' ;;
          ret ((ci - bi)%float :: fst r, (ci + bi)%float :: snd r)
      end
  end.

Definition BoundPoints (pi : path) (nt : NTree) : run (list float * list float) :=
  RLock pi nt ;;; r <- corners (center nt) (bounds nt) ;; RUnlock pi ;;; ret r.

(** The loop of [Contains] over [p.Coords]. *)
Fixpoint within (c b xs : list float) : run bool :=
  match xs with
  | [] => ret true
  | x :: xs' =>
      match c, b with
      | ci :: c', bi :: b' =>
          if (x <? ci - bi)%float || (ci + bi <? x)%float then ret false
          else within c' b' xs'
      | _, _ => Panic [] "index out of range"
      end
  end.

(** The message of [Contains] for a point of the wrong dimension. *)
Definition dimension_error (k n : nat) : error :=
  String.append "Point is "
    (String.append (FormatUint k)
       (String.append " dimensional, NTree is " (FormatUint n))).

Definition Contains (pi : path) (nt : NTree) (pt : option Point) : run (res bool) :=
  RLock pi nt ;;;
  r <- match pt with
       | None => ret (Error "Point is nil")
       | Some q =>
           if negb (List.length (Coords q) =? N nt)%nat then
             ret (Error (dimension_error (List.length (Coords q)) (N nt)))
           else
             b <- within (center nt) (bounds nt) (Coords q) ;; ret (Ok b)
       end ;;
  RUnlock pi ;;; ret r.

(** [n & (1 << pos) > 0] and [n | (1 << pos)] on [int]. *)
Definition hasBit (n : Z) (pos : nat) : bool :=
  Z.land n (wrap_int (Z.shiftl 1 (Z.of_nat pos))) >? 0.

Definition setBit (n : Z) (pos : nat) : Z :=
  Z.lor n (wrap_int (Z.shiftl 1 (Z.of_nat pos))).

(** The bitmask loop of [Add]: bit [j] is set when [p.Coords[j] > nt.center[j]].
    [Contains] has checked that the point has as many coordinates as the
    centre. *)
Fixpoint child_index (j : nat) (c xs : list float) (target : Z) : Z :=
  match c, xs with
  | cj :: c', x :: xs' =>
      child_index (S j) c' xs' (if (cj <? x)%float then setBit target j else target)
  | _, _ => target
  end.

(** Centre and bounds of child [i], from dimension [j] on. *)
Fixpoint child_box (i : Z) (j : nat) (c b : list float) : run (list float * list float) :=
  match c with
  | [] => ret ([], [])
  | cj :: c' =>
      match b with
      | [] => Panic [] "index out of range"
      | bj :: b' =>
          r <- child_box i (S j) c' b' ;;
          let h := (bj / 2)%float in
          if hasBit i j then ret ((cj + h)%float :: fst r, h :: snd r)
          else ret ((cj - h)%float :: fst r, h :: snd r)
      end
  end.

(** The loop of [Add] that fills [nt.children], entries [i .. i + todo - 1].
    When [New] fails at entry [i] that entry receives nil, the later ones are
    still nil, and the error is returned. *)
Fixpoint make_children (nt : NTree) (i todo : nat) : run (list (option NTree) * option error) :=
  match todo with
  | O => ret ([], None)
  | S todo' =>
      box <- child_box (Z.of_nat i) 0 (center nt) (bounds nt) ;;
      match New (fst box) (snd box) with
      | Error e => ret (repeat None todo, Some e)
      | Ok child =>
          r <- make_children nt (S i) todo' ;;
          ret (Some child :: fst r, snd r)
      end
  end.

(** [nt.children[target]] followed by a method call on the entry. *)
Definition child_at (cs : list (option NTree)) (target : Z) : run NTree :=
  if (target <? 0) || (Z.of_nat (List.length cs) <=? target) then
    Panic [] "index out of range"
  else match nth_error cs (Z.to_nat target) with
       | None => Panic [] "index out of range"
       | Some None => Panic [] "nil pointer dereference"
       | Some (Some child) => ret child
       end.

(** The slice after [l[i] = a], for [i] in range. *)
Fixpoint store_at {A : Type} (l : list A) (i : nat) (a : A) : list A :=
  match l, i with
  | [], _ => []
  | _ :: l', O => a :: l'
  | x :: l', S i' => x :: store_at l' i' a
  end.

(** [Add].  The node is returned as the call leaves it, whether the call
    returns nil or an error.  In the branch that descends the deferred
    [Unlock] runs after the recursive call; in the branch that splits, the
    [return err] after a failed [New] leaves the mutex held. *)
Fixpoint Add (fuel : nat) (pi : path) (nt : NTree) (pt : option Point) {struct fuel}
  : run (NTree * option error) :=
  match fuel with
  | O => OutOfFuel []
  | S fuel' =>
    r <- Contains pi nt pt ;;
    match r, pt with
    | Error e, _ => ret (nt, Some e)
    | Ok false, _ => ret (nt, Some "Point doesn't fall within bounds of NTree.")
    | Ok true, None => Panic [] "nil pointer dereference"
    | Ok true, Some q =>
      nt <- Lock pi nt ;;
      match p nt, children nt with
      | None, None =>
          (* simplest case, add to current node *)
          nt <- incr_count pi (set_p nt (Some q)) ;;
          nt <- Unlock pi nt ;;
          ret (nt, None)
      | _, Some cs =>
          (* recurse into children by generating child bounding bitmask *)
          let target := child_index 0 (center nt) (Coords q) 0 in
          child <- child_at cs target ;;
          r <- Add fuel' (pi ++ [Z.to_nat target]) child (Some q) ;;
          let nt := set_children nt (Some (store_at cs (Z.to_nat target) (Some (fst r)))) in
          nt <- match snd r with
                | None => incr_count pi nt
                | Some _ => ret nt
                end ;;
          nt <- Unlock pi nt ;;
          ret (nt, snd r)
      | Some curP, None =>
          (* create children, re-add current node's Point data, then add Point p *)
          let size := ModPowUint64 2 (Z.of_nat (N nt)) MaxInt in
          made <- make_children nt 0 (Z.to_nat size) ;;
          let nt := set_children nt (Some (fst made)) in
          match snd made with
          | Some e => ret (nt, Some e)
          | None =>
              nt <- decr_count pi (set_p nt None) ;;
              nt <- Unlock pi nt ;;
              r <- Add fuel' pi nt (Some curP) ;;
              match snd r with
              | Some e => ret (fst r, Some e)
              | None => Add fuel' pi (fst r) (Some q)
              end
          end
      end
    end
  end.

(** ** point.go *)

(** The leaf test of [Search]: the point is dropped as soon as a coordinate is
    below [p1[i]] or above [p2[i]]. *)
Fixpoint leaf_match (xs p1 p2 : list float) : run bool :=
  match xs with
  | [] => ret true
  | x :: xs' =>
      match p1, p2 with
      | lo :: p1', hi :: p2' =>
          if (x <? lo)%float || (hi <? x)%float then ret false
          else leaf_match xs' p1' p2'
      | _, _ => Panic [] "index out of range"
      end
  end.

(** The inner loop of [Search] over the dimensions of one child.  Its
    [continue] belongs to this loop, so both branches go on to the next
    dimension and the loop decides nothing. *)
Fixpoint scan_dims (c b p1 p2 : list float) : run unit :=
  match p1 with
  | [] => ret tt
  | lo :: p1' =>
      match c, b, p2 with
      | ci :: c', bi :: b', hi :: p2' =>
          let s1 := (ci - bi)%float in
          let s2 := (ci + bi)%float in
          if ((s1 <? lo)%float && (s2 <? lo)%float) || ((hi <? s1)%float && (hi <? s2)%float)
          then (* continue *) scan_dims c' b' p1' p2'
          else scan_dims c' b' p1' p2'
      | _, _, _ => Panic [] "index out of range"
      end
  end.

(** [Search].  A nil and an empty result slice are both the empty list. *)
Fixpoint Search (pi : path) (nt : NTree) (p1 p2 : list float) {struct nt}
  : run (res (list Point)) :=
  match nt with
  | mkNTree c b op ocs m n =>
    RLock pi (mkNTree c b op ocs m n) ;;;
    if negb (List.length p1 =? List.length p2)%nat || negb (List.length p2 =? List.length c)%nat then
      RUnlock pi ;;;
      ret (Error "Bounding points have different dimensions than tree.")
    else
      match ocs, op with
      | None, Some q =>
          (* check local Point for leaf node *)
          keep <- leaf_match (Coords q) p1 p2 ;;
          RUnlock pi ;;;
          ret (Ok (if keep then [q] else []))
      | None, None => RUnlock pi ;;; ret (Ok [])
      | Some cs, _ =>
          r <- (fix each (cs : list (option NTree)) (i : nat) (points : list Point)
                  {struct cs} : run (res (list Point)) :=
                  match cs with
                  | [] => ret (Ok points)
                  | None :: _ => Panic [] "nil pointer dereference"
                  | Some child :: rest =>
                      scan_dims (center child) (bounds child) p1 p2 ;;;
                      r <- Search (pi ++ [i]) child p1 p2 ;;
                      match r with
                      | Error e => ret (Error e)
                      | Ok found => each rest (S i) (points ++ found)
                      end
                  end) cs O [] ;;
          RUnlock pi ;;;
          ret r
      end
  end.

(** [Search] with its loop over the children named. *)
Fixpoint Search_each (pi : path) (p1 p2 : list float) (cs : list (option NTree))
  (i : nat) (points : list Point) {struct cs} : run (res (list Point)) :=
  match cs with
  | [] => ret (Ok points)
  | None :: _ => Panic [] "nil pointer dereference"
  | Some child :: rest =>
      scan_dims (center child) (bounds child) p1 p2 ;;;
      r <- Search (pi ++ [i]) child p1 p2 ;;
      match r with
      | Error e => ret (Error e)
      | Ok found => Search_each pi p1 p2 rest (S i) (points ++ found)
      end
  end.

(** ** Pure readings of the loops, used to state results *)

(** What [within] decides when it does not run out of [center] or [bounds]. *)
Fixpoint inside (c b xs : list float) : bool :=
  match xs, c, b with
  | x :: xs', ci :: c', bi :: b' =>
      negb ((x <? ci - bi)%float || (ci + bi <? x)%float) && inside c' b' xs'
  | _, _, _ => true
  end.

(** What [leaf_match] decides on a point of the query's dimension. *)
Fixpoint matches (xs p1 p2 : list float) : bool :=
  match xs, p1, p2 with
  | x :: xs', lo :: p1', hi :: p2' =>
      negb ((x <? lo)%float || (hi <? x)%float) && matches xs' p1' p2'
  | _, _, _ => true
  end.

(** Every coordinate lies in the closed interval [[lo_i, hi_i]]. *)
Fixpoint in_box (xs p1 p2 : list float) : bool :=
  match xs, p1, p2 with
  | x :: xs', lo :: p1', hi :: p2' =>
      (lo <=? x)%float && (x <=? hi)%float && in_box xs' p1' p2'
  | _, _, _ => true
  end.

Definition no_nan (q : Point) : Prop := Forall (fun x => is_nan x = false) (Coords q).

(** The test the inner loop of [Search] evaluates for a child: in some
    dimension the child's interval lies wholly below or wholly above the
    query's. *)
Fixpoint outside (c b p1 p2 : list float) : bool :=
  match c, b, p1, p2 with
  | ci :: c', bi :: b', lo :: p1', hi :: p2' =>
      let s1 := (ci - bi)%float in
      let s2 := (ci + bi)%float in
      ((s1 <? lo)%float && (s2 <? lo)%float) || ((hi <? s1)%float && (hi <? s2)%float)
      || outside c' b' p1' p2'
  | _, _, _, _ => false
  end.

(** The points stored in a tree, in the order [Search] meets them. *)
Definition opt_list {A : Type} (o : option A) : list A :=
  match o with Some a => [a] | None => [] end.

Fixpoint points (t : NTree) : list Point :=
  match t with
  | mkNTree _ _ op ocs _ _ =>
      opt_list op ++
      match ocs with
      | None => []
      | Some cs =>
          (fix go (cs : list (option NTree)) : list Point :=
             match cs with
             | [] => []
             | None :: rest => go rest
             | Some c :: rest => points c ++ go rest
             end) cs
      end
  end.

Definition points_of (o : option NTree) : list Point :=
  match o with Some c => points c | None => [] end.

(** The node reached from [t] along a path of child indices. *)
Fixpoint node_at (t : NTree) (pi : path) : option NTree :=
  match pi with
  | [] => Some t
  | i :: pi' =>
      match children t with
      | Some cs =>
          match nth_error cs i with
          | Some (Some c) => node_at c pi'
          | _ => None
          end
      | None => None
      end
  end.

(** Number of locks held after a trace that starts with [n] held, and the
    largest number held at any moment of it. *)
Fixpoint held (n : nat) (tr : trace) : nat :=
  match tr with
  | [] => n
  | (EvRLock _ | EvLock _) :: tr' => held (S n) tr'
  | (EvRUnlock _ | EvUnlock _) :: tr' => held (Nat.pred n) tr'
  | EvCount _ _ _ :: tr' => held n tr'
  end.

Fixpoint peak (n : nat) (tr : trace) : nat :=
  match tr with
  | [] => n
  | (EvRLock _ | EvLock _) :: tr' => Nat.max n (peak (S n) tr')
  | (EvRUnlock _ | EvUnlock _) :: tr' => Nat.max n (peak (Nat.pred n) tr')
  | EvCount _ _ _ :: tr' => peak n tr'
  end.

(** Nodes on the longest path from [t] down to a leaf. *)
Fixpoint height (t : NTree) : nat :=
  match t with
  | mkNTree _ _ _ ocs _ _ =>
      S (match ocs with
         | None => O
         | Some cs =>
             (fix go (cs : list (option NTree)) : nat :=
                match cs with
                | [] => O
                | None :: rest => go rest
                | Some c :: rest => Nat.max (height c) (go rest)
                end) cs
         end)
  end.

(** ** Well-formed trees

    What [New] establishes and every successful [Add] keeps: all nodes have
    the same dimension, a stored point has that dimension, a node with
    children stores no point of its own, no child entry is nil and no mutex
    is left held. *)
Inductive wf (n : nat) : NTree -> Prop :=
| wf_leaf c b op k :
    List.length c = n -> List.length b = n ->
    (forall q, op = Some q -> List.length (Coords q) = n) ->
    wf n (mkNTree c b op None MuFree k)
| wf_inner c b cs k :
    List.length c = n -> List.length b = n ->
    wf_children n cs ->
    wf n (mkNTree c b None (Some cs) MuFree k)
with wf_children (n : nat) : list (option NTree) -> Prop :=
| wfc_nil : wf_children n []
| wfc_cons t cs : wf n t -> wf_children n cs -> wf_children n (Some t :: cs).

Scheme wf_mut := Minimality for wf Sort Prop
  with wf_children_mut := Minimality for wf_children Sort Prop.

(** Trees built through the interface: [New], then insertions that returned
    nil, listed latest first. *)
Inductive built : NTree -> list Point -> Prop :=
| built_New c b t : New c b = Ok t -> built t []
| built_Add t ps fuel q tr t' :
    built t ps ->
    Add fuel [] t (Some q) = Done tr (t', None) ->
    built t' (q :: ps).

(** The runs of [Add] that return nil on a well-formed tree of dimension [n],
    one rule per branch of the method, with the events of the run.
    [inserted n pi t q tr t'] reads: [Add] called on [t], found at path [pi],
    with point [q], performs [tr] and leaves [t']. *)
Inductive inserted (n : nat) : path -> NTree -> Point -> trace -> NTree -> Prop :=
| ins_store pi c b k q :
    List.length c = n -> List.length b = n ->
    List.length (Coords q) = n -> inside c b (Coords q) = true ->
    inserted n pi (mkNTree c b None None MuFree k) q
      [EvRLock pi; EvRUnlock pi; EvLock pi;
       EvCount pi k (wrap_uint64 (k + 1)); EvUnlock pi]
      (mkNTree c b (Some q) None MuFree (wrap_uint64 (k + 1)))
| ins_descend pi c b cs k q child tra ta :
    List.length c = n -> List.length b = n -> wf_children n cs ->
    List.length (Coords q) = n -> inside c b (Coords q) = true ->
    0 <= child_index 0 c (Coords q) 0 ->
    nth_error cs (Z.to_nat (child_index 0 c (Coords q) 0)) = Some (Some child) ->
    inserted n (pi ++ [Z.to_nat (child_index 0 c (Coords q) 0)]) child q tra ta ->
    inserted n pi (mkNTree c b None (Some cs) MuFree k) q
      ([EvRLock pi; EvRUnlock pi; EvLock pi] ++ tra ++
       [EvCount pi k (wrap_uint64 (k + 1)); EvUnlock pi])
      (mkNTree c b None
         (Some (store_at cs (Z.to_nat (child_index 0 c (Coords q) 0)) (Some ta)))
         MuFree (wrap_uint64 (k + 1)))
| ins_split pi c b k curP q cs tra ta trb t' :
    List.length c = n -> List.length b = n ->
    List.length (Coords curP) = n ->
    List.length (Coords q) = n -> inside c b (Coords q) = true ->
    make_children (mkNTree c b (Some curP) None MuWrite k) 0
      (Z.to_nat (ModPowUint64 2 (Z.of_nat (List.length c)) MaxInt)) = Done [] (cs, None) ->
    inserted n pi (mkNTree c b None (Some cs) MuFree (wrap_uint64 (k - 1))) curP tra ta ->
    inserted n pi ta q trb t' ->
    inserted n pi (mkNTree c b (Some curP) None MuFree k) q
      ([EvRLock pi; EvRUnlock pi; EvLock pi;
        EvCount pi k (wrap_uint64 (k - 1)); EvUnlock pi] ++ tra ++ trb)
      t'.

(** ** Vocabulary of the statements *)

(** Pairwise [lo_i <= hi_i]. *)
Definition ordered (lo hi : list float) : Prop :=
  Forall2 (fun l h => (l <=? h)%float = true) lo hi.

(** Some dimension has [lo_i > hi_i]. *)
Definition inverted (lo hi : list float) : Prop :=
  exists i l h, nth_error lo i = Some l /\ nth_error hi i = Some h /\ (h <? l)%float = true.

(** Coordinate [k] of the point is above coordinate [k] of the centre. *)
Definition above (c xs : list float) (k : nat) : bool :=
  match nth_error c k, nth_error xs k with
  | Some ck, Some x => (ck <? x)%float
  | _, _ => false
  end.

(** The height of the tallest child in a children slice. *)
Definition tallest (cs : list (option NTree)) : nat :=
  fold_right (fun o h => Nat.max (match o with Some c => height c | None => O end) h) O cs.

(** At no moment of the trace is more than one lock held. *)
Definition one_lock_at_a_time (tr : trace) : Prop := (peak 0 tr <= 1)%nat.

(** No counter write of the trace lowers the counter. *)
Definition never_lowered (tr : trace) : Prop :=
  forall pi old new, In (EvCount pi old new) tr -> old <= new.

(** No counter of the tree is at the top of its range (so no increment wraps
    around) and none is negative. *)
Definition counters_in_range (t : NTree) : Prop :=
  forall pi m, node_at t pi = Some m -> 0 <= count m < 2 ^ 64 - 1.

(** Every node's count is the number of points stored below it, as a
    [uint64]. *)
Definition exact_counts (t : NTree) : Prop :=
  forall pi m, node_at t pi = Some m ->
    count m = wrap_uint64 (Z.of_nat (List.length (points m))).

(** ** Example inputs *)

(** The tree left by [t.Add(q)], and the tree returned by [New]. *)
Definition added (t : NTree) (q : Point) : NTree :=
  match Add 8 [] t (Some q) with
  | Done _ (t', _) => t'
  | _ => t
  end.

Definition made (r : res NTree) : NTree :=
  match r with
  | Ok t => t
  | Error _ => mkNTree [] [] None None MuFree 0
  end.

(** The two-dimensional tree centred at (0,0) with bounds (1,1), holding
    (-0.5,-0.5) and (0.5,0.5): one split.  [pC] is a third point, in the
    quadrant of [pB]. *)
Definition pA : Point := mkPoint [(-0.5)%float; (-0.5)%float] None.
Definition pB : Point := mkPoint [0.5%float; 0.5%float] None.
Definition pC : Point := mkPoint [0.75%float; 0.75%float] None.
Definition quad0 : NTree := made (New [0%float; 0%float] [1%float; 1%float]).
Definition quad1 : NTree := added quad0 pA.
Definition quad2 : NTree := added quad1 pB.

(** A one-dimensional tree holding a point whose coordinate is NaN. *)
Definition pNaN : Point := mkPoint [nan] None.
Definition line0 : NTree := made (New [0%float] [1%float]).
Definition lineNaN : NTree := added line0 pNaN.

(** A one-dimensional tree whose bounds are the smallest positive binary64
    value, holding one point. *)
Definition tiny : float := 0x1p-1074%float.
Definition pLow : Point := mkPoint [(- tiny)%float] None.
Definition pHigh : Point := mkPoint [tiny] None.
Definition sliver0 : NTree := made (New [0%float] [tiny]).
Definition sliver1 : NTree := added sliver0 pLow.

(** A one-dimensional tree around 2^53, where binary64 values are 1 apart
    below and 2 apart above. *)
Definition pTop : Point := mkPoint [(0x1p53 + 2)%float] None.
Definition pBelow : Point := mkPoint [(0x1p53 - 1)%float] None.
Definition coarse0 : NTree := made (New [0x1p53%float] [2%float]).
Definition coarse1 : NTree := added coarse0 pTop.

(** A tree of the largest dimension [New] accepts, holding one point. *)
Definition p63 (x : float) : Point := mkPoint (repeat x 63) None.
Definition wide0 : NTree := made (New (repeat 0%float 63) (repeat 1%float 63)).
Definition wide1 : NTree := added wide0 (p63 (-0.5)%float).

(** ** The remaining methods: getters and [Iter] *)

(** [Center()], [Bounds()] and [Point()]: the field, read under the node's
    read lock.  ([Point()] is [PointOf] here, [Point] being the type.) *)
Definition Center (pi : path) (nt : NTree) : run (list float) :=
  RLock pi nt ;;; RUnlock pi ;;; ret (center nt).

Definition Bounds (pi : path) (nt : NTree) : run (list float) :=
  RLock pi nt ;;; RUnlock pi ;;; ret (bounds nt).

Definition PointOf (pi : path) (nt : NTree) : run (option Point) :=
  RLock pi nt ;;; RUnlock pi ;;; ret (p nt).

(** A [func(n *NTree)] handed to [Iter], with the variables it captures as a
    state [St]: what it does when called on a node (it may call the node's
    methods and may leave the node changed) and what it does when called on a
    nil pointer.  It acts on the node it is given and on its own state
    only. *)
Record visitor (St : Type) : Type := mkVisitor {
  on_node : path -> NTree -> St -> run (NTree * St);
  on_nil : path -> St -> run St
}.
Arguments mkVisitor {St} on_node on_nil.
Arguments on_node {St} v pi nt s.
Arguments on_nil {St} v pi s.

(** The loop of [Iter] over [nt.children], from entry [i] on. *)
Fixpoint Iter_children {St : Type} (f : visitor St) (pi : path)
  (cs : list (option NTree)) (i : nat) (s : St) : run (list (option NTree) * St) :=
  match cs with
  | [] => ret ([], s)
  | None :: rest =>
      s' <- on_nil f (pi ++ [i]) s ;;
      r <- Iter_children f pi rest (S i) s' ;;
      ret (None :: fst r, snd r)
  | Some child :: rest =>
      v <- on_node f (pi ++ [i]) child s ;;
      r <- Iter_children f pi rest (S i) (snd v) ;;
      ret (Some (fst v) :: fst r, snd r)
  end.

(** [Iter]: the node is locked exclusively, [f] is called on the node and then
    on each entry of its children, and the deferred [Unlock] runs.  Unlocking
    a mutex that the visitor has left unlocked is a run-time error. *)
Definition Iter {St : Type} (pi : path) (nt : NTree) (f : visitor St) (s : St)
  : run (NTree * St) :=
  nt <- Lock pi nt ;;
  v <- on_node f pi nt s ;;
  r <- match children (fst v) with
       | None => ret (fst v, snd v)
       | Some cs =>
           r <- Iter_children f pi cs O (snd v) ;;
           ret (set_children (fst v) (Some (fst r)), snd r)
       end ;;
  match mutex (fst r) with
  | MuWrite => nt <- Unlock pi (fst r) ;; ret (nt, snd r)
  | MuFree => Panic [] "sync: Unlock of unlocked RWMutex"
  end.

(** Visitors: one that only looks at the node and updates its state by [g],
    and one that adds up [Count()] of the nodes it is given. *)
Definition observer {St : Type} (g : path -> option NTree -> St -> St) : visitor St :=
  mkVisitor (fun pi nt s => ret (nt, g pi (Some nt) s))
            (fun pi s => ret (g pi None s)).

Definition count_visitor : visitor Z :=
  mkVisitor (fun pi nt s => c <- Count pi nt ;; ret (nt, s + c))
            (fun pi s => Panic [] "nil pointer dereference").

(** [quad2] after a third insertion, which splits child 3, and that child. *)
Definition quad3 : NTree := added quad2 pC.
Definition quad3_child3 : NTree :=
  match node_at quad3 [3%nat] with
  | Some m => m
  | None => quad3
  end.

(** ** Vocabulary of the further statements *)

(** A property of single nodes holds at every node of the tree. *)
Definition all_nodes (I : NTree -> Prop) (t : NTree) : Prop :=
  forall pi m, node_at t pi = Some m -> I m.

(** Every point stored at or below the node passes the node's own
    containment test. *)
Definition boxed_node (m : NTree) : Prop :=
  Forall (fun q => inside (center m) (bounds m) (Coords q) = true) (points m).

(** Every point stored below child [i] of the node has index [i] with
    respect to the node's centre. *)
Definition routed_node (m : NTree) : Prop :=
  forall cs i c q,
    children m = Some cs -> nth_error cs i = Some (Some c) -> In q (points c) ->
    child_index 0 (center m) (Coords q) 0 = Z.of_nat i.

(** The children of the node are as the split made them: as many as the
    slice size computed for the node's dimension, child [i] with the centre
    and bounds computed for index [i]. *)
Definition shaped_node (m : NTree) : Prop :=
  forall cs,
    children m = Some cs ->
    Z.of_nat (List.length cs) = ModPowUint64 2 (Z.of_nat (N m)) MaxInt /\
    forall i c, nth_error cs i = Some (Some c) ->
      child_box (Z.of_nat i) 0 (center m) (bounds m) = Done [] (center c, bounds c).

(** A leaf holding a point, or a node whose single child is such a tree:
    the shape of a non-empty tree whose splits made one child each. *)
Inductive full : NTree -> Prop :=
| full_leaf c b q m k : full (mkNTree c b (Some q) None m k)
| full_inner c b ch m k : full ch -> full (mkNTree c b None (Some [Some ch]) m k).

(** The paths of a node and of its immediate children. *)
Definition one_level (pi : path) (nt : NTree) : list path :=
  pi :: match children nt with
        | None => []
        | Some cs => map (fun i => pi ++ [i]) (seq 0 (List.length cs))
        end.

(** The centre and bounds of the node are ones that [New] accepts. *)
Definition newable_node (m : NTree) : Prop :=
  New (center m) (bounds m) = Ok (mkNTree (center m) (bounds m) None None MuFree 0).


(** Halving every bound, as a split does. *)
Definition halved (b : list float) : list float := map (fun x => (x / 2)%float) b.

(** * Facts *)

(** ** Order of binary64 values *)

Section FloatOrder.

Local Open Scope float_scope.

Lemma SFcompare_antisym (a b : spec_float) :
  SFcompare b a = option_map CompOpp (SFcompare a b).
Proof.
  destruct a as [sa|sa| |sa ma ea], b as [sb|sb| |sb mb eb]; simpl; try reflexivity;
    try (destruct sa; reflexivity); try (destruct sb; reflexivity);
    try (destruct sa, sb; reflexivity).
  destruct sa, sb; try reflexivity; f_equal;
    rewrite (Z.compare_antisym ea eb);
    destruct (ea ?= eb)%Z; simpl; try reflexivity;
    change (Pos.compare_cont Eq mb ma) with (Pos.compare mb ma);
    change (Pos.compare_cont Eq ma mb) with (Pos.compare ma mb);
    rewrite (Pos.compare_antisym ma mb); try reflexivity;
    now rewrite CompOpp_involutive.
Qed.

Lemma SFcompare_None (a b : spec_float) :
  SFcompare a b = None -> a = S754_nan \/ b = S754_nan.
Proof.
  destruct a as [sa|sa| |sa ma ea], b as [sb|sb| |sb mb eb]; simpl; auto; discriminate.
Qed.

Lemma SFcompare_refl (a : spec_float) :
  a <> S754_nan -> SFcompare a a = Some Eq.
Proof.
  destruct a as [sa|sa| |sa ma ea]; simpl; intros H; try reflexivity.
  - destruct sa; reflexivity.
  - congruence.
  - destruct sa; rewrite Z.compare_refl;
      change (Pos.compare_cont Eq ma ma) with (Pos.compare ma ma);
      now rewrite Pos.compare_refl.
Qed.

Ltac cmp_cases :=
  repeat match goal with
  | |- context [(?x ?= ?y)%Z] => destruct (Z.compare_spec x y); subst
  | H : context [(?x ?= ?y)%Z] |- _ => destruct (Z.compare_spec x y); subst
  | |- context [Pos.compare_cont Eq ?x ?y] =>
      change (Pos.compare_cont Eq x y) with (Pos.compare x y)
  | H : context [Pos.compare_cont Eq ?x ?y] |- _ =>
      change (Pos.compare_cont Eq x y) with (Pos.compare x y) in H
  | |- context [(?x ?= ?y)%positive] => destruct (Pos.compare_spec x y); subst
  | H : context [(?x ?= ?y)%positive] |- _ => destruct (Pos.compare_spec x y); subst
  end.

Lemma SFleb_chain (a b c : spec_float) :
  SFleb a b = true -> SFleb b c = true -> SFltb c a = false.
Proof.
  unfold SFleb, SFltb.
  destruct a as [sa|sa| |sa ma ea], b as [sb|sb| |sb mb eb], c as [sc|sc| |sc mc ec];
    simpl; try discriminate; try reflexivity;
    try (destruct sa; simpl; try discriminate; try reflexivity);
    try (destruct sb; simpl; try discriminate; try reflexivity);
    try (destruct sc; simpl; try discriminate; try reflexivity);
    intros H1 H2; cmp_cases; simpl in *; try discriminate; try reflexivity; try lia.
Qed.

Lemma is_nan_spec (x : float) : is_nan x = false <-> Prim2SF x <> S754_nan.
Proof.
  unfold is_nan. rewrite FloatAxioms.eqb_spec. unfold SFeqb. split.
  - intros H E. rewrite E in H. discriminate.
  - intros H. now rewrite (SFcompare_refl _ H).
Qed.

(** [a < b] excludes [b <= a]. *)
Lemma ltb_leb_false (x y : float) : (x <? y) = true -> (y <=? x) = false.
Proof.
  rewrite FloatAxioms.ltb_spec, FloatAxioms.leb_spec. unfold SFltb, SFleb.
  rewrite (SFcompare_antisym (Prim2SF x) (Prim2SF y)).
  destruct (SFcompare (Prim2SF x) (Prim2SF y)) as [[ | | ]|]; simpl; congruence.
Qed.

(** Away from NaN the order is total. *)
Lemma nltb_leb (x y : float) :
  is_nan x = false -> is_nan y = false -> (x <? y) = false -> (y <=? x) = true.
Proof.
  rewrite !is_nan_spec, FloatAxioms.ltb_spec, FloatAxioms.leb_spec. unfold SFltb, SFleb. intros Hx Hy.
  rewrite (SFcompare_antisym (Prim2SF x) (Prim2SF y)).
  destruct (SFcompare (Prim2SF x) (Prim2SF y)) as [[ | | ]|] eqn:E; simpl; try congruence.
  apply SFcompare_None in E. tauto.
Qed.

Lemma leb_nltb (x y : float) : (y <=? x) = true -> (x <? y) = false.
Proof.
  intros H. destruct (x <? y) eqn:E; [|reflexivity].
  apply ltb_leb_false in E. congruence.
Qed.

Lemma leb_not_nan (x y : float) :
  (x <=? y) = true -> is_nan x = false /\ is_nan y = false.
Proof.
  rewrite !is_nan_spec, FloatAxioms.leb_spec. unfold SFleb. intros H.
  split; intros E; rewrite E in H; simpl in H; try discriminate.
  destruct (Prim2SF x); discriminate.
Qed.

Lemma ltb_not_nan (x y : float) :
  (x <? y) = true -> is_nan x = false /\ is_nan y = false.
Proof.
  rewrite !is_nan_spec, FloatAxioms.ltb_spec. unfold SFltb. intros H.
  split; intros E; rewrite E in H; simpl in H; try discriminate.
  destruct (Prim2SF x); discriminate.
Qed.

(** [lo <= x <= hi] excludes [hi < lo]. *)
Lemma leb_chain (lo x hi : float) :
  (lo <=? x) = true -> (x <=? hi) = true -> (hi <? lo) = false.
Proof. rewrite !FloatAxioms.leb_spec, FloatAxioms.ltb_spec. apply SFleb_chain. Qed.

End FloatOrder.

(** ** The effect monad *)

Lemma after_nil {A : Type} (m : run A) : after [] m = m.
Proof. destruct m; reflexivity. Qed.

Lemma after_after {A : Type} (tr1 tr2 : trace) (m : run A) :
  after tr1 (after tr2 m) = after (tr1 ++ tr2) m.
Proof. destruct m; simpl; now rewrite app_assoc. Qed.

Lemma after_Done {A : Type} (tr0 tr : trace) (m : run A) (a : A) :
  after tr0 m = Done tr a -> exists tr', m = Done tr' a /\ tr = tr0 ++ tr'.
Proof. destruct m; simpl; intros H; inversion H; subst; eauto. Qed.

Lemma bind_Done {A B : Type} (m : run A) (k : A -> run B) (tr : trace) (b : B) :
  bind m k = Done tr b ->
  exists tr1 a tr2, m = Done tr1 a /\ k a = Done tr2 b /\ tr = tr1 ++ tr2.
Proof.
  destruct m as [tr1 a| | |]; simpl; try discriminate.
  intros H. apply after_Done in H as (tr2 & H & ->). eauto 6.
Qed.

Lemma events_after {A : Type} (tr0 : trace) (m : run A) :
  events (after tr0 m) = tr0 ++ events m.
Proof. destruct m; reflexivity. Qed.

(** ** The loops on vectors of the right length *)

Lemma within_inside (c b xs : list float) :
  List.length c = List.length xs -> List.length b = List.length xs ->
  within c b xs = Done [] (inside c b xs).
Proof.
  revert c b. induction xs as [|x xs IH]; intros [|ci c] [|bi b]; simpl;
    try discriminate; try reflexivity.
  intros Hc Hb. destruct ((x <? ci - bi)%float || (ci + bi <? x)%float); simpl.
  - reflexivity.
  - apply IH; congruence.
Qed.

Lemma leaf_match_matches (xs p1 p2 : list float) :
  List.length p1 = List.length xs -> List.length p2 = List.length xs ->
  leaf_match xs p1 p2 = Done [] (matches xs p1 p2).
Proof.
  revert p1 p2. induction xs as [|x xs IH]; intros [|lo p1] [|hi p2]; simpl;
    try discriminate; try reflexivity.
  intros H1 H2. destruct ((x <? lo)%float || (hi <? x)%float); simpl.
  - reflexivity.
  - apply IH; congruence.
Qed.

(** The inner loop of [Search] returns without a verdict whatever its test
    says. *)
Lemma scan_dims_idle (c b p1 p2 : list float) :
  List.length c = List.length p1 -> List.length b = List.length p1 ->
  List.length p2 = List.length p1 ->
  scan_dims c b p1 p2 = Done [] tt.
Proof.
  revert c b p2. induction p1 as [|lo p1 IH]; intros [|ci c] [|bi b] [|hi p2]; simpl;
    try discriminate; try reflexivity.
  intros Hc Hb H2.
  destruct (_ || _); apply IH; congruence.
Qed.

Lemma corners_lengths (c b : list float) :
  List.length b = List.length c ->
  exists lo hi, corners c b = Done [] (lo, hi) /\
                List.length lo = List.length c /\ List.length hi = List.length c.
Proof.
  revert b. induction c as [|ci c IH]; intros [|bi b]; simpl; try discriminate.
  - intros _. exists [], []. auto.
  - intros H. destruct (IH b) as (lo & hi & E & Hlo & Hhi); [congruence|].
    rewrite E. simpl. eexists _, _. split; [reflexivity|]. simpl. auto.
Qed.

(** A point that [Contains] accepts passes the leaf test of a [Search] over
    the corners of the node. *)
Lemma inside_matches_corners (c b xs lo hi : list float) :
  corners c b = Done [] (lo, hi) ->
  inside c b xs = true -> matches xs lo hi = true.
Proof.
  revert b xs lo hi. induction c as [|ci c IH]; intros [|bi b] [|x xs] lo hi; simpl;
    try discriminate; try (intros H; inversion H; subst; reflexivity);
    try (destruct (corners c b) as [tr [l h]| | |]; simpl; try discriminate;
         intros H; inversion H; subst; reflexivity).
  destruct (corners c b) as [tr [l h]| | |] eqn:E; simpl; try discriminate.
  intros H; inversion H; subst. simpl.
  intros Hin. apply andb_prop in Hin as [Hhere Hrest]. rewrite Hhere. simpl.
  destruct tr; [|discriminate]. eapply IH; eauto.
Qed.

(** ** Reading [Contains], [New] and the traversal functions *)

Lemma Contains_free (pi : path) (t : NTree) (q : Point) :
  mutex t = MuFree -> List.length (bounds t) = N t ->
  Contains pi t (Some q) =
  Done [EvRLock pi; EvRUnlock pi]
    (if negb (List.length (Coords q) =? N t)%nat
     then Error (dimension_error (List.length (Coords q)) (N t))
     else Ok (inside (center t) (bounds t) (Coords q))).
Proof.
  intros Hm Hb. unfold Contains, RLock. rewrite Hm. simpl.
  destruct (List.length (Coords q) =? N t)%nat eqn:E; simpl; [|reflexivity].
  apply Nat.eqb_eq in E. unfold N in *.
  rewrite within_inside by congruence. reflexivity.
Qed.

Lemma New_Ok (c b : list float) (t : NTree) :
  New c b = Ok t ->
  t = mkNTree c b None None MuFree 0 /\
  List.length b = List.length c /\ (1 <= List.length c <= MaxN)%nat.
Proof.
  unfold New.
  destruct (MaxN <? List.length c)%nat eqn:E1; [discriminate|].
  destruct (List.length c =? List.length b)%nat eqn:E2; simpl; [|discriminate].
  destruct (List.length c =? 0)%nat eqn:E3; [discriminate|].
  destruct (first_nonpositive 0 b); [discriminate|].
  intros H; inversion H; subst.
  apply Nat.ltb_ge in E1. apply Nat.eqb_eq in E2. apply Nat.eqb_neq in E3.
  repeat split; lia.
Qed.

Lemma points_unfold (t : NTree) :
  points t = opt_list (p t) ++
             match children t with
             | Some cs => flat_map points_of cs
             | None => []
             end.
Proof.
  destruct t as [c b op [cs|] m k]; simpl; [|reflexivity].
  f_equal. induction cs as [|[ch|] cs IH]; simpl; congruence.
Qed.

Lemma height_unfold (t : NTree) :
  height t = S (match children t with
                | Some cs => fold_right (fun o h => Nat.max (match o with Some c => height c | None => O end) h) O cs
                | None => O
                end).
Proof.
  destruct t as [c b op [cs|] m k]; simpl; [|reflexivity].
  f_equal. induction cs as [|[ch|] cs IH]; simpl; congruence.
Qed.

Lemma Search_unfold (pi : path) (t : NTree) (p1 p2 : list float) :
  Search pi t p1 p2 =
  (RLock pi t ;;;
   if negb (List.length p1 =? List.length p2)%nat || negb (List.length p2 =? N t)%nat then
     RUnlock pi ;;; ret (Error "Bounding points have different dimensions than tree.")
   else
     match children t, p t with
     | None, Some q =>
         keep <- leaf_match (Coords q) p1 p2 ;;
         RUnlock pi ;;; ret (Ok (if keep then [q] else []))
     | None, None => RUnlock pi ;;; ret (Ok [])
     | Some cs, _ =>
         r <- Search_each pi p1 p2 cs O [] ;;
         RUnlock pi ;;; ret r
     end).
Proof.
  destruct t as [c b op [cs|] m k]; simpl; [|reflexivity].
  match goal with
  | |- context [?F cs O []] =>
      assert (E : forall l i acc, F l i acc = Search_each pi p1 p2 l i acc)
  end.
  { induction l as [|[ch|] l IH]; intros i acc; simpl; try reflexivity.
    destruct (scan_dims (center ch) (bounds ch) p1 p2); simpl; try reflexivity.
    destruct (Search (pi ++ [i]) ch p1 p2) as [tr1 [found|e]| | |]; simpl;
      try reflexivity.
    now rewrite IH. }
  rewrite E. reflexivity.
Qed.

(** ** Lock accounting *)

Lemma held_app (n : nat) (tr1 tr2 : trace) :
  held n (tr1 ++ tr2) = held (held n tr1) tr2.
Proof.
  revert n. induction tr1 as [|[x|x|x|x|x o v] tr1 IH]; intros n; simpl; auto.
Qed.

Lemma peak_app (n : nat) (tr1 tr2 : trace) :
  peak n (tr1 ++ tr2) = Nat.max (peak n tr1) (peak (held n tr1) tr2).
Proof.
  revert n. induction tr1 as [|[x|x|x|x|x o v] tr1 IH]; intros n; simpl;
    try rewrite IH; try lia.
  assert (H : forall k tr, (k <= peak k tr)%nat).
  { intros j tr. revert j. induction tr as [|[y|y|y|y|y o v] tr IHt]; intros j; simpl;
      try lia. apply IHt. }
  specialize (H n tr2). lia.
Qed.

Lemma peak_ge (n : nat) (tr : trace) : (n <= peak n tr)%nat.
Proof.
  revert n. induction tr as [|[y|y|y|y|y o v] tr IH]; intros n; simpl; try lia.
  apply IH.
Qed.

(** ** [Search] on a well-formed tree *)

Lemma Search_wf (n : nat) (t : NTree) :
  wf n t ->
  forall (pi : path) (p1 p2 : list float),
    List.length p1 = n -> List.length p2 = n ->
    exists tr,
      Search pi t p1 p2 =
        Done tr (Ok (filter (fun q => matches (Coords q) p1 p2) (points t))) /\
      forall k, held k tr = k /\ peak k tr = (k + height t)%nat.
Proof.
  intros Hwf.
  induction Hwf using wf_mut with
    (P0 := fun cs =>
       forall (pi : path) (p1 p2 : list float) (i : nat) (acc : list Point),
         List.length p1 = n -> List.length p2 = n ->
         exists tr,
           Search_each pi p1 p2 cs i acc =
             Done tr (Ok (acc ++ filter (fun q => matches (Coords q) p1 p2)
                                   (flat_map points_of cs))) /\
           forall k, held k tr = k /\ peak k tr = (k + tallest cs)%nat).
  - (* leaf *)
    intros pi p1 p2 L1 L2. rewrite Search_unfold, points_unfold, height_unfold.
    unfold RLock, N. simpl.
    replace (List.length p1 =? List.length p2)%nat with true
      by (symmetry; apply Nat.eqb_eq; congruence).
    replace (List.length p2 =? List.length c)%nat with true
      by (symmetry; apply Nat.eqb_eq; congruence).
    simpl. destruct op as [q|]; simpl.
    + rewrite leaf_match_matches by (rewrite (H1 q eq_refl); congruence).
      simpl. eexists. split.
      * destruct (matches (Coords q) p1 p2); reflexivity.
      * intros j. cbn [held peak Nat.pred]. split; lia.
    + eexists. split; [reflexivity|]. intros j. cbn [held peak Nat.pred]. split; lia.
  - (* inner *)
    intros pi p1 p2 L1 L2. rewrite Search_unfold, points_unfold, height_unfold.
    unfold RLock, N. simpl.
    replace (List.length p1 =? List.length p2)%nat with true
      by (symmetry; apply Nat.eqb_eq; congruence).
    replace (List.length p2 =? List.length c)%nat with true
      by (symmetry; apply Nat.eqb_eq; congruence).
    simpl.
    destruct (IHHwf pi p1 p2 O [] L1 L2) as (tr & E & Htr).
    rewrite E. simpl. eexists. split; [reflexivity|].
    intros j. fold (tallest cs). cbn [held peak].
    rewrite held_app, peak_app.
    destruct (Htr (S j)) as [Hh Hp]. rewrite Hh, Hp. cbn [held peak Nat.pred].
    split; lia.
  - (* no children left *)
    intros pi p1 p2 i acc L1 L2. simpl. eexists. split.
    + now rewrite app_nil_r.
    + intros j. cbn [held peak Nat.pred]. split; lia.
  - (* one more child *)
    intros pi p1 p2 i acc L1 L2. simpl.
    assert (Hc : List.length (center t) = n /\ List.length (bounds t) = n)
      by (inversion Hwf; simpl; auto).
    destruct Hc as [Hc Hb].
    rewrite scan_dims_idle by congruence. simpl.
    destruct (IHHwf (pi ++ [i]) p1 p2 L1 L2) as (tr1 & E1 & Htr1).
    rewrite E1. simpl.
    destruct (IHHwf0 pi p1 p2 (S i)
                (acc ++ filter (fun q => matches (Coords q) p1 p2) (points t)) L1 L2)
      as (tr2 & E2 & Htr2).
    rewrite E2. simpl. eexists. split.
    + rewrite filter_app, app_assoc. reflexivity.
    + intros j. rewrite held_app, peak_app.
      destruct (Htr1 j) as [Hh1 Hp1]. rewrite Hh1, Hp1.
      destruct (Htr2 j) as [Hh2 Hp2]. rewrite Hh2, Hp2. split; lia.
Qed.

(** ** Children: lookup, update, creation *)

Lemma wf_center (n : nat) (t : NTree) : wf n t -> List.length (center t) = n.
Proof. intros H; inversion H; auto. Qed.

Lemma wf_bounds (n : nat) (t : NTree) : wf n t -> List.length (bounds t) = n.
Proof. intros H; inversion H; auto. Qed.

Lemma wf_mutex (n : nat) (t : NTree) : wf n t -> mutex t = MuFree.
Proof. intros H; inversion H; auto. Qed.

Lemma wf_children_nth (n : nat) (cs : list (option NTree)) (i : nat) (o : option NTree) :
  wf_children n cs -> nth_error cs i = Some o -> exists c, o = Some c /\ wf n c.
Proof.
  intros H. revert i. induction H as [|t cs Ht Hcs IH]; intros [|i]; simpl;
    try discriminate.
  - intros E; inversion E; eauto.
  - apply IH.
Qed.

Lemma wf_children_store (n : nat) (cs : list (option NTree)) (i : nat) (c : NTree) :
  wf_children n cs -> wf n c -> wf_children n (store_at cs i (Some c)).
Proof.
  intros H Hc. revert i. induction H as [|t cs Ht Hcs IH]; intros [|i]; simpl;
    constructor; auto.
Qed.

Lemma store_at_points (cs : list (option NTree)) (i : nat) (c c' : NTree) (q : Point) :
  nth_error cs i = Some (Some c) ->
  Permutation (points c') (q :: points c) ->
  Permutation (flat_map points_of (store_at cs i (Some c'))) (q :: flat_map points_of cs).
Proof.
  revert i. induction cs as [|o cs IH]; intros [|i]; simpl; try discriminate.
  - intros E HP; inversion E; subst. simpl.
    change (q :: points c ++ flat_map points_of cs)
      with ((q :: points c) ++ flat_map points_of cs).
    now apply Permutation_app_tail.
  - intros E HP. specialize (IH i E HP).
    eapply Permutation_trans.
    + apply Permutation_app_head. exact IH.
    + symmetry. apply Permutation_middle.
Qed.

Lemma child_at_Done (cs : list (option NTree)) (target : Z) (tr : trace) (c : NTree) :
  child_at cs target = Done tr c ->
  tr = [] /\ 0 <= target /\ nth_error cs (Z.to_nat target) = Some (Some c).
Proof.
  unfold child_at. destruct (_ || _) eqn:E; [discriminate|].
  apply orb_false_elim in E as [E1 E2]. apply Z.ltb_ge in E1.
  destruct (nth_error cs (Z.to_nat target)) as [[ch|]|]; try discriminate.
  intros H; inversion H; subst. auto.
Qed.

Lemma child_box_lengths (i : Z) (c b : list float) (j : nat) :
  List.length b = List.length c ->
  exists cc bb, child_box i j c b = Done [] (cc, bb) /\
                List.length cc = List.length c /\ List.length bb = List.length c.
Proof.
  revert b j. induction c as [|cj c IH]; intros [|bj b] j; simpl; try discriminate.
  - intros _. exists [], []. auto.
  - intros H. destruct (IH b (S j)) as (cc & bb & E & Hc & Hb); [congruence|].
    rewrite E. simpl. destruct (hasBit i j); simpl; eexists _, _;
      (split; [reflexivity|]); simpl; split; congruence.
Qed.

(** A split that completes yields as many fresh empty leaves as asked for. *)
Lemma make_children_Done (n : nat) (nt : NTree) (i todo : nat) (tr : trace)
  (cs : list (option NTree)) :
  List.length (center nt) = n -> List.length (bounds nt) = n ->
  make_children nt i todo = Done tr (cs, None) ->
  tr = [] /\ wf_children n cs /\ flat_map points_of cs = [] /\ List.length cs = todo.
Proof.
  intros Hc Hb. revert i tr cs. induction todo as [|todo IH]; intros i tr cs; simpl.
  - intros H; inversion H; subst. repeat split; constructor.
  - destruct (child_box_lengths (Z.of_nat i) (center nt) (bounds nt) 0)
      as (cc & bb & E & Hcc & Hbb); [congruence|].
    rewrite E. simpl.
    destruct (New cc bb) as [child|e] eqn:EN; simpl; [|discriminate].
    destruct (make_children nt (S i) todo) as [tr' [cs' err]| | |] eqn:EM; simpl;
      try discriminate.
    intros H; inversion H; subst.
    destruct (IH _ _ _ EM) as (-> & Hwf & Hpts & Hlen).
    apply New_Ok in EN as (-> & Hl & _).
    split; [reflexivity|]. split.
    { constructor; auto. constructor; auto. discriminate. }
    split; simpl; [exact Hpts | congruence].
Qed.

(** ** A successful [Add] *)

Lemma wrap_uint64_pred_succ (k : Z) :
  wrap_uint64 (wrap_uint64 (wrap_uint64 (k - 1) + 1) + 1) = wrap_uint64 (k + 1).
Proof.
  unfold wrap_uint64.
  rewrite Z.add_mod_idemp_l by (cbv; discriminate).
  rewrite <- Z.add_assoc, Z.add_mod_idemp_l by (cbv; discriminate).
  f_equal. lia.
Qed.

Lemma inserted_ok (n : nat) (pi : path) (t : NTree) (q : Point) (tr : trace) (t' : NTree) :
  inserted n pi t q tr t' ->
  wf n t /\ wf n t' /\
  Permutation (points t') (q :: points t) /\
  count t' = wrap_uint64 (count t + 1) /\
  center t' = center t /\ bounds t' = bounds t /\
  List.length (Coords q) = n /\
  inside (center t) (bounds t) (Coords q) = true.
Proof.
  induction 1 as
    [pi c b k q Hc Hb Hq Hin
    |pi c b cs k q child tra ta Hc Hb Hcs Hq Hin Htarget Enth Hins IH
    |pi c b k curP q cs tra ta trb t' Hc Hb HcurP Hq Hin EM Hins1 IH1 Hins2 IH2];
    cbn [center bounds count].
  - repeat split; try assumption; try reflexivity.
    + constructor; auto. discriminate.
    + constructor; auto. intros q0 E; inversion E; subst; assumption.
  - destruct IH as (_ & Hwfa & Hpa & _).
    repeat split; try assumption; try reflexivity.
    + now constructor.
    + constructor; auto. now apply wf_children_store.
    + rewrite !points_unfold. cbn [p children opt_list app].
      eapply store_at_points; eassumption.
  - destruct IH1 as (_ & Hwfa & Hpa & Hka & Hca & Hba & _).
    destruct IH2 as (_ & Hwf' & Hp' & Hk' & Hc' & Hb' & _).
    apply (make_children_Done n) in EM as (_ & Hcs & Hpts & _); [|exact Hc|exact Hb].
    match type of Hpa with
    | Permutation _ (_ :: points ?x) => rewrite (points_unfold x) in Hpa
    end.
    cbn [p children opt_list app] in Hpa.
    rewrite Hpts in Hpa. cbn [center bounds count] in *.
    repeat split; try assumption; try congruence.
    + constructor; auto. intros q0 E; inversion E; subst; assumption.
    + cbn [points opt_list app].
      eapply Permutation_trans; [exact Hp'|]. now constructor.
    + rewrite Hk', Hka. apply wrap_uint64_pred_succ.
Qed.

(** Every run of [Add] on a well-formed tree that returns nil is one of the
    runs described by [inserted]. *)
Lemma Add_inserted (fuel : nat) :
  forall (pi : path) (n : nat) (t : NTree) (q : Point) (tr : trace) (t' : NTree),
    wf n t ->
    Add fuel pi t (Some q) = Done tr (t', None) ->
    inserted n pi t q tr t'.
Proof.
  induction fuel as [|fuel IH]; intros pi n t q tr t' Hwf HA; [discriminate|].
  cbn [Add] in HA.
  rewrite Contains_free in HA
    by (try apply (wf_mutex _ _ Hwf); unfold N;
        rewrite (wf_bounds _ _ Hwf), (wf_center _ _ Hwf); reflexivity).
  cbn [bind] in HA.
  destruct (List.length (Coords q) =? N t)%nat eqn:EN; cbn [negb] in HA;
    [|discriminate].
  apply Nat.eqb_eq in EN. unfold N in EN. rewrite (wf_center _ _ Hwf) in EN.
  destruct (inside (center t) (bounds t) (Coords q)) eqn:Ein; [|discriminate].
  apply after_Done in HA as (tr0 & HA & ->).
  inversion Hwf as [c b op k Hc Hb Hop|c b cs k Hc Hb Hcs]; subst t;
    cbn [Lock mutex bind set_mutex p children center bounds count Coords N] in HA;
    apply after_Done in HA as (tr1 & HA & ->);
    cbn [center bounds count] in *.
  - (* leaf *)
    destruct op as [curP|].
    + (* occupied: split *)
      apply bind_Done in HA as (trm & [cs err] & tr2 & EM & HA & ->).
      cbn [fst snd] in HA. destruct err as [e|]; [inversion HA|].
      unfold set_mutex, N in EM. cbn [center bounds p children mutex count] in EM.
      assert (HM := EM).
      apply (make_children_Done n) in HM as (-> & Hcs & Hpts & _); [|exact Hc|exact Hb].
      cbn [decr_count Unlock bind set_mutex set_count set_p set_children
             center bounds p children mutex count] in HA.
      rewrite after_after in HA. apply after_Done in HA as (tr3 & HA & ->).
      apply bind_Done in HA as (tra & [ta erra] & trb & EA & HA & ->).
      cbn [fst snd] in HA. destruct erra as [e|]; [inversion HA|].
      apply (IH pi n) in EA; [|constructor; assumption].
      apply (IH pi n) in HA; [|apply (inserted_ok _ _ _ _ _ _ EA)].
      cbn [app].
      exact (ins_split n pi c b k curP q cs tra ta trb t'
               Hc Hb (Hop curP eq_refl) EN Ein EM EA HA).
    + (* empty: store the point *)
      cbn [incr_count Unlock bind after set_mutex set_count set_p set_children
             center bounds p children mutex count app] in HA.
      inversion HA; subst. now constructor.
  - (* inner node: descend *)
    apply bind_Done in HA as (trc & child & tr2 & EC & HA & ->).
    apply child_at_Done in EC as (-> & Htarget & Enth).
    destruct (wf_children_nth _ _ _ _ Hcs Enth) as (child' & E' & Hchild).
    inversion E'; subst child'.
    apply bind_Done in HA as (tra & [ta erra] & trb & EA & HA & ->).
    cbn [fst snd] in HA. destruct erra as [e|]; [inversion HA|].
    apply (IH _ n) in EA; [|exact Hchild].
    cbn [incr_count Unlock bind after set_mutex set_count set_p set_children
           center bounds p children mutex count app] in HA.
    inversion HA; subst. cbn [app].
    exact (ins_descend _ pi c b cs k q child tra ta Hc Hb Hcs eq_refl Ein Htarget Enth EA).
Qed.

Lemma Add_ok (fuel : nat) (pi : path) (n : nat) (t : NTree) (q : Point)
  (tr : trace) (t' : NTree) :
  wf n t ->
  Add fuel pi t (Some q) = Done tr (t', None) ->
  wf n t' /\
  Permutation (points t') (q :: points t) /\
  count t' = wrap_uint64 (count t + 1) /\
  center t' = center t /\ bounds t' = bounds t /\
  List.length (Coords q) = n /\
  inside (center t) (bounds t) (Coords q) = true.
Proof.
  intros Hwf HA. apply (Add_inserted fuel pi n) in HA; [|exact Hwf].
  apply inserted_ok in HA. tauto.
Qed.

(** ** Locks and counters along a successful [Add] *)

Lemma inserted_locks (n : nat) (pi : path) (t : NTree) (q : Point) (tr : trace) (t' : NTree) :
  inserted n pi t q tr t' ->
  forall j,
    held j tr = j /\
    (j + match children t with Some _ => 2 | None => 1 end <= peak j tr)%nat.
Proof.
  induction 1 as
    [pi c b k q Hc Hb Hq Hin
    |pi c b cs k q child tra ta Hc Hb Hcs Hq Hin Htarget Enth Hins IH
    |pi c b k curP q cs tra ta trb t' Hc Hb HcurP Hq Hin EM Hins1 IH1 Hins2 IH2];
    intros j; cbn [children].
  - cbn [held peak Nat.pred]. split; lia.
  - cbn [app held peak Nat.pred]. rewrite held_app, peak_app.
    destruct (IH (S j)) as [Hh Hp]. rewrite Hh. cbn [held peak Nat.pred].
    split; [reflexivity|].
    destruct (children child); lia.
  - cbn [app held peak Nat.pred]. rewrite !held_app.
    destruct (IH1 j) as [Hh1 _]. destruct (IH2 j) as [Hh2 _].
    rewrite Hh1, Hh2. split; lia.
Qed.

Lemma nth_error_store_at_same {A : Type} (l : list A) (i : nat) (x a : A) :
  nth_error l i = Some x -> nth_error (store_at l i a) i = Some a.
Proof.
  revert i. induction l as [|y l IH]; intros [|i]; simpl; try discriminate; auto.
Qed.

Lemma nth_error_store_at_other {A : Type} (l : list A) (i j : nat) (a : A) :
  i <> j -> nth_error (store_at l i a) j = nth_error l j.
Proof.
  revert i j. induction l as [|y l IH]; intros [|i] [|j] H; simpl; auto; congruence.
Qed.

Lemma inserted_counts (n : nat) (pi0 : path) (t : NTree) (q : Point) (tr : trace) (t' : NTree) :
  inserted n pi0 t q tr t' ->
  counters_in_range t ->
  forall pi m, node_at t pi = Some m ->
    exists m', node_at t' pi = Some m' /\ 0 <= count m <= count m'.
Proof.
  intros Hins.
  assert (Hroot : counters_in_range t -> 0 <= count t <= count t').
  { intros Hr. destruct (inserted_ok _ _ _ _ _ _ Hins) as (_ & _ & _ & Hk & _).
    specialize (Hr [] t eq_refl). rewrite Hk. unfold wrap_uint64.
    rewrite Z.mod_small; lia. }
  revert Hroot.
  induction Hins as
    [pi0 c b k q Hc Hb Hq Hin
    |pi0 c b cs k q child tra ta Hc Hb Hcs Hq Hin Htarget Enth Hins IH
    |pi0 c b k curP q cs tra ta trb t' Hc Hb HcurP Hq Hin EM Hins1 IH1 Hins2 IH2];
    intros Hroot Hr [|i pi] m E; cbn [node_at children] in E; try discriminate;
    try (inversion E; subst m; eexists; split; [reflexivity|]; now apply Hroot).
  cbn [node_at children].
  destruct (Nat.eq_dec (Z.to_nat (child_index 0 c (Coords q) 0)) i) as [<-|Hne].
  - rewrite Enth in E.
    rewrite (nth_error_store_at_same _ _ _ _ Enth).
    apply IH; [| |exact E].
    + intros Hrc. destruct (inserted_ok _ _ _ _ _ _ Hins) as (_ & _ & _ & Hk & _).
      specialize (Hrc [] child eq_refl). rewrite Hk. unfold wrap_uint64.
      rewrite Z.mod_small; lia.
    + intros pi' m' E'. apply (Hr (Z.to_nat (child_index 0 c (Coords q) 0) :: pi')).
      cbn [node_at children]. now rewrite Enth.
  - rewrite (nth_error_store_at_other _ _ _ _ Hne).
    exists m. split; [exact E|].
    assert (Hm : 0 <= count m < 2 ^ 64 - 1) by (apply (Hr (i :: pi)); exact E).
    lia.
Qed.

(** ** Trees built through the interface *)

Lemma wrap_uint64_succ (m : nat) :
  wrap_uint64 (wrap_uint64 (Z.of_nat m) + 1) = wrap_uint64 (Z.of_nat (S m)).
Proof.
  unfold wrap_uint64. rewrite Z.add_mod_idemp_l by (cbv; discriminate).
  f_equal. lia.
Qed.

Lemma built_inv (t : NTree) (ps : list Point) :
  built t ps ->
  exists n,
    wf n t /\ (1 <= n <= MaxN)%nat /\
    Permutation (points t) ps /\
    count t = wrap_uint64 (Z.of_nat (List.length ps)) /\
    Forall (fun q => List.length (Coords q) = n /\
                     inside (center t) (bounds t) (Coords q) = true) ps.
Proof.
  induction 1 as [c b t HN|t ps fuel q tr t' Hb (n & Hwf & Hn & Hp & Hk & Hall) HA].
  - apply New_Ok in HN as (-> & Hl & Hn). exists (List.length c).
    repeat split; try (constructor; auto; discriminate); try lia.
  - apply (Add_ok fuel [] n) in HA; [|exact Hwf].
    destruct HA as (Hwf' & Hp' & Hk' & Hc' & Hb' & Hq & Hin).
    exists n. repeat split; try assumption; try lia.
    + eapply Permutation_trans; [exact Hp'|]. now constructor.
    + rewrite Hk', Hk. apply wrap_uint64_succ.
    + rewrite Hc', Hb'. constructor; auto.
Qed.

Lemma filter_Permutation {A : Type} (f : A -> bool) (l l' : list A) :
  Permutation l l' -> Permutation (filter f l) (filter f l').
Proof.
  induction 1 as [|x l l' H IH|x y l|l l' l'' H1 IH1 H2 IH2]; simpl.
  - constructor.
  - destruct (f x); [constructor|]; assumption.
  - destruct (f x), (f y); try reflexivity. constructor.
  - eapply Permutation_trans; eassumption.
Qed.

Lemma Forall_Permutation {A : Type} (P : A -> Prop) (l l' : list A) :
  Permutation l l' -> Forall P l -> Forall P l'.
Proof.
  intros HP H. rewrite Forall_forall in *. intros x Hx.
  apply H. eapply Permutation_in; [symmetry; exact HP|exact Hx].
Qed.

Lemma filter_all {A : Type} (f : A -> bool) (l : list A) :
  Forall (fun x => f x = true) l -> filter f l = l.
Proof.
  induction 1 as [|x l Hx H IH]; simpl; [reflexivity|]. now rewrite Hx, IH.
Qed.

Lemma filter_none {A : Type} (f : A -> bool) (l : list A) :
  Forall (fun x => f x = false) l -> filter f l = [].
Proof.
  induction 1 as [|x l Hx H IH]; simpl; [reflexivity|]. now rewrite Hx.
Qed.

(** Whatever the stored coordinates are, [Search] on a built tree returns the
    inserted points that pass its leaf test. *)
Lemma Search_returns_points_passing_leaf_test
  (t : NTree) (ps : list Point) (lo hi : list float) :
  built t ps ->
  List.length lo = N t -> List.length hi = N t ->
  exists tr found,
    Search [] t lo hi = Done tr (Ok found) /\
    Permutation found (filter (fun q => matches (Coords q) lo hi) ps).
Proof.
  intros Hb Hlo Hhi.
  destruct (built_inv _ _ Hb) as (n & Hwf & _ & Hp & _ & _).
  unfold N in *. rewrite (wf_center _ _ Hwf) in *.
  destruct (Search_wf n t Hwf [] lo hi Hlo Hhi) as (tr & E & _).
  eexists. eexists. split; [exact E|]. now apply filter_Permutation.
Qed.

(** A point of the wrong dimension or outside the bounds is refused by [Add]
    before the node is touched. *)
Lemma rejected_point_leaves_tree (fuel : nat) (pi : path) (n : nat) (t : NTree) (q : Point) :
  wf n t ->
  List.length (Coords q) <> n \/ inside (center t) (bounds t) (Coords q) = false ->
  exists e, Add (S fuel) pi t (Some q) = Done [EvRLock pi; EvRUnlock pi] (t, Some e).
Proof.
  intros Hwf H. cbn [Add].
  rewrite Contains_free
    by (try apply (wf_mutex _ _ Hwf); unfold N;
        rewrite (wf_bounds _ _ Hwf), (wf_center _ _ Hwf); reflexivity).
  unfold N. rewrite (wf_center _ _ Hwf).
  destruct (List.length (Coords q) =? n)%nat eqn:E; cbn [negb bind after].
  - apply Nat.eqb_eq in E. destruct H as [H|H]; [congruence|].
    rewrite H. eexists. reflexivity.
  - eexists. reflexivity.
Qed.

(** ** The leaf test against the closed box *)

Lemma matches_in_box (xs lo hi : list float) :
  Forall (fun x => is_nan x = false) xs -> ordered lo hi ->
  matches xs lo hi = in_box xs lo hi.
Proof.
  intros Hx Ho. revert xs Hx. induction Ho as [|l h lo hi Hlh Ho IH]; intros [|x xs] Hx;
    simpl; try reflexivity.
  inversion Hx as [|? ? Hnx Hxs]; subst. rewrite (IH xs Hxs). f_equal.
  apply leb_not_nan in Hlh as [Hnl Hnh].
  destruct (x <? l)%float eqn:E1; simpl.
  - now rewrite (ltb_leb_false _ _ E1).
  - rewrite (nltb_leb _ _ Hnx Hnl E1). simpl.
    destruct (h <? x)%float eqn:E2; simpl.
    + now rewrite (ltb_leb_false _ _ E2).
    + now rewrite (nltb_leb _ _ Hnh Hnx E2).
Qed.

Lemma matches_inverted (xs lo hi : list float) :
  Forall (fun x => is_nan x = false) xs ->
  List.length lo = List.length xs -> List.length hi = List.length xs ->
  inverted lo hi ->
  matches xs lo hi = false.
Proof.
  intros Hx Hlo Hhi (i & l & h & El & Eh & Hlt).
  revert xs lo hi Hx Hlo Hhi El Eh.
  induction i as [|i IH]; intros [|x xs] [|l0 lo] [|h0 hi] Hx Hlo Hhi El Eh;
    simpl in *; try discriminate.
  - inversion El; inversion Eh; subst. inversion Hx as [|? ? Hnx Hxs]; subst.
    destruct (ltb_not_nan _ _ Hlt) as [Hnh Hnl].
    destruct (x <? l)%float eqn:E1; simpl; [reflexivity|].
    destruct (h <? x)%float eqn:E2; simpl; [reflexivity|].
    pose proof (leb_chain l x h (nltb_leb _ _ Hnx Hnl E1) (nltb_leb _ _ Hnh Hnx E2)).
    congruence.
  - inversion Hx as [|? ? Hnx Hxs]; subst.
    rewrite (IH xs lo hi); auto. apply andb_false_r.
Qed.

(** ** The example trees are built through the interface *)

Lemma built_quad0 : built quad0 [].
Proof. now apply (built_New [0%float; 0%float] [1%float; 1%float]). Qed.

Lemma built_quad1 : built quad1 [pA].
Proof.
  eapply (built_Add quad0 [] 8 pA); [exact built_quad0|].
  vm_compute. reflexivity.
Qed.

Lemma built_quad2 : built quad2 [pB; pA].
Proof.
  eapply (built_Add quad1 [pA] 8 pB); [exact built_quad1|].
  vm_compute. reflexivity.
Qed.

Lemma built_lineNaN : built lineNaN [pNaN].
Proof.
  eapply (built_Add line0 [] 8 pNaN).
  - now apply (built_New [0%float] [1%float]).
  - vm_compute. reflexivity.
Qed.

Lemma built_sliver1 : built sliver1 [pLow].
Proof.
  eapply (built_Add sliver0 [] 8 pLow).
  - now apply (built_New [0%float] [tiny]).
  - vm_compute. reflexivity.
Qed.

Lemma built_coarse1 : built coarse1 [pTop].
Proof.
  eapply (built_Add coarse0 [] 8 pTop).
  - now apply (built_New [0x1p53%float] [2%float]).
  - vm_compute. reflexivity.
Qed.

Lemma built_wide1 : built wide1 [p63 (-0.5)%float].
Proof.
  eapply (built_Add wide0 [] 8 (p63 (-0.5)%float)).
  - now apply (built_New (repeat 0%float 63) (repeat 1%float 63)).
  - vm_compute. reflexivity.
Qed.

(** ** The geometry of a split in dimension at most 62 *)

Lemma ModPowUint64_two (n : nat) :
  (n <= 62)%nat -> ModPowUint64 2 (Z.of_nat n) MaxInt = 2 ^ Z.of_nat n.
Proof.
  intros Hn. unfold ModPowUint64, MaxInt. apply Z.mod_small.
  assert (2 ^ Z.of_nat n <= 2 ^ 62) by (apply Z.pow_le_mono_r; lia).
  assert (0 < 2 ^ Z.of_nat n) by (apply Z.pow_pos_nonneg; lia).
  change (2 ^ 63) with (2 * 2 ^ 62). lia.
Qed.

Lemma shifted_one (j : nat) :
  (j <= 62)%nat -> wrap_int (Z.shiftl 1 (Z.of_nat j)) = 2 ^ Z.of_nat j.
Proof.
  intros Hj. rewrite Z.shiftl_1_l. unfold wrap_int.
  assert (2 ^ Z.of_nat j <= 2 ^ 62) by (apply Z.pow_le_mono_r; lia).
  assert (0 < 2 ^ Z.of_nat j) by (apply Z.pow_pos_nonneg; lia).
  rewrite Z.mod_small; [lia|].
  change (2 ^ 64) with (4 * 2 ^ 62). change (2 ^ 63) with (2 * 2 ^ 62). lia.
Qed.

Lemma land_pow2 (i : Z) (j : nat) :
  Z.land i (2 ^ Z.of_nat j) = if Z.testbit i (Z.of_nat j) then 2 ^ Z.of_nat j else 0.
Proof.
  apply Z.bits_inj'. intros k Hk.
  rewrite Z.land_spec, Z.pow2_bits_eqb by lia.
  destruct (Z.eqb_spec (Z.of_nat j) k) as [<-|Hne].
  - rewrite andb_true_r. destruct (Z.testbit i (Z.of_nat j)) eqn:E.
    + rewrite Z.pow2_bits_true; [reflexivity|lia].
    + now rewrite Z.bits_0.
  - rewrite andb_false_r. destruct (Z.testbit i (Z.of_nat j)).
    + rewrite Z.pow2_bits_false; [reflexivity|exact Hne].
    + now rewrite Z.bits_0.
Qed.

(** [hasBit] reads bit [j] of a child index. *)
Lemma hasBit_testbit (i : Z) (j : nat) :
  (j <= 62)%nat -> hasBit i j = Z.testbit i (Z.of_nat j).
Proof.
  intros Hj. unfold hasBit. rewrite (shifted_one j Hj), land_pow2.
  destruct (Z.testbit i (Z.of_nat j)); [|reflexivity].
  assert (0 < 2 ^ Z.of_nat j) by (apply Z.pow_pos_nonneg; lia).
  apply Z.gtb_lt. lia.
Qed.

(** [setBit] sets bit [j] and leaves the others. *)
Lemma setBit_testbit (n : Z) (j : nat) (d : Z) :
  (j <= 62)%nat -> 0 <= d ->
  Z.testbit (setBit n j) d = Z.testbit n d || (Z.of_nat j =? d).
Proof.
  intros Hj Hd. unfold setBit. rewrite (shifted_one j Hj), Z.lor_spec.
  now rewrite Z.pow2_bits_eqb by lia.
Qed.

Lemma child_index_testbit (c xs : list float) :
  forall (j0 : nat) (acc : Z) (d : nat),
    (j0 + List.length c <= 63)%nat ->
    Z.testbit (child_index j0 c xs acc) (Z.of_nat d) =
    Z.testbit acc (Z.of_nat d) || ((j0 <=? d)%nat && above c xs (d - j0)).
Proof.
  assert (Hnil : forall l k, above l [] k = false).
  { intros l k. unfold above. destruct (nth_error l k); [|reflexivity].
    destruct k; reflexivity. }
  assert (Hnil' : forall l k, above [] l k = false).
  { intros l k. unfold above. destruct k; reflexivity. }
  revert xs. induction c as [|cj c IH]; intros [|x xs] j0 acc d Hlen;
    cbn [child_index];
    rewrite ?Hnil, ?Hnil', ?andb_false_r, ?orb_false_r; try reflexivity.
  rewrite IH by (simpl in Hlen; lia).
  destruct (Nat.leb_spec (S j0) d) as [Hd|Hd].
  - replace (j0 <=? d)%nat with true by (symmetry; apply Nat.leb_le; lia).
    replace (d - j0)%nat with (S (d - S j0)) by lia.
    unfold above at 2. simpl. fold (above c xs (d - S j0)).
    destruct (cj <? x)%float; [|reflexivity].
    rewrite setBit_testbit by (simpl in Hlen; lia).
    replace (Z.of_nat j0 =? Z.of_nat d) with false by (symmetry; apply Z.eqb_neq; lia).
    now rewrite orb_false_r.
  - rewrite andb_false_l, orb_false_r.
    destruct (Nat.leb_spec j0 d) as [Hd'|Hd'].
    + assert (d = j0) by lia. subst d. rewrite Nat.sub_diag. unfold above. simpl.
      destruct (cj <? x)%float.
      * rewrite setBit_testbit by (simpl in Hlen; lia).
        rewrite Z.eqb_refl. now rewrite orb_true_r.
      * now rewrite orb_false_r.
    + rewrite andb_false_l, orb_false_r.
      destruct (cj <? x)%float; [|reflexivity].
      rewrite setBit_testbit by (simpl in Hlen; lia).
      replace (Z.of_nat j0 =? Z.of_nat d) with false by (symmetry; apply Z.eqb_neq; lia).
      now rewrite orb_false_r.
Qed.

Lemma child_index_range (c xs : list float) :
  forall (j0 : nat) (acc : Z),
    (j0 + List.length c <= 63)%nat ->
    0 <= acc < 2 ^ Z.of_nat j0 ->
    0 <= child_index j0 c xs acc < 2 ^ Z.of_nat (j0 + List.length c).
Proof.
  revert xs. induction c as [|cj c IH]; intros xs j0 acc Hlen Hacc; simpl.
  - rewrite Nat.add_0_r. destruct xs; exact Hacc.
  - destruct xs as [|x xs]; simpl.
    + split; [lia|]. eapply Z.lt_le_trans; [apply Hacc|].
      apply Z.pow_le_mono_r; lia.
    + replace (j0 + S (List.length c))%nat with (S j0 + List.length c)%nat by lia.
      apply IH; [simpl in Hlen; lia|].
      assert (Hp : 2 ^ Z.of_nat (S j0) = 2 * 2 ^ Z.of_nat j0)
        by (rewrite Nat2Z.inj_succ, Z.pow_succ_r; lia).
      destruct (cj <? x)%float; [|lia].
      unfold setBit. rewrite shifted_one by (simpl in Hlen; lia).
      assert (Hbit : Z.testbit acc (Z.of_nat j0) = false).
      { destruct (Z.eq_dec acc 0) as [->|Hnz]; [apply Z.bits_0|].
        apply Z.bits_above_log2; [lia|]. apply Z.log2_lt_pow2; lia. }
      assert (Hland : Z.land acc (2 ^ Z.of_nat j0) = 0)
        by (now rewrite land_pow2, Hbit).
      assert (Hlor : Z.lor acc (2 ^ Z.of_nat j0) = acc + 2 ^ Z.of_nat j0)
        by (now rewrite <- (Z.lxor_lor _ _ Hland), <- (Z.add_nocarry_lxor _ _ Hland)).
      rewrite Hlor. lia.
Qed.

Lemma child_box_nth (i : Z) (c : list float) :
  forall (j0 : nat) (b cc bb : list float),
    child_box i j0 c b = Done [] (cc, bb) ->
    forall d cj bj,
      nth_error c d = Some cj -> nth_error b d = Some bj ->
      nth_error bb d = Some (bj / 2)%float /\
      nth_error cc d =
        Some (if hasBit i (j0 + d) then (cj + bj / 2)%float else (cj - bj / 2)%float).
Proof.
  induction c as [|c0 c IH]; intros j0 [|b0 b] cc bb E [|d] cj bj Hc Hb;
    simpl in *; try discriminate;
    destruct (child_box i (S j0) c b) as [tr [cc' bb']| | |] eqn:E'; simpl in E;
    try discriminate.
  - inversion Hc; inversion Hb; subst. rewrite Nat.add_0_r.
    destruct (hasBit i j0); simpl in E; injection E as Htr Hcc Hbb; subst;
      simpl; auto.
  - replace (j0 + S d)%nat with (S j0 + d)%nat by lia.
    destruct (hasBit i j0); simpl in E; injection E as Htr Hcc Hbb; subst;
      apply app_eq_nil in Htr as [-> _]; simpl;
      exact (IH (S j0) b cc' bb' E' d cj bj Hc Hb).
Qed.

Lemma make_children_nth (nt : NTree) :
  forall (todo i0 : nat) (tr : trace) (cs : list (option NTree)),
    List.length (bounds nt) = List.length (center nt) ->
    make_children nt i0 todo = Done tr (cs, None) ->
    forall d child,
      nth_error cs d = Some (Some child) ->
      child_box (Z.of_nat (i0 + d)) 0 (center nt) (bounds nt) =
        Done [] (center child, bounds child) /\
      p child = None /\ children child = None /\ count child = 0.
Proof.
  induction todo as [|todo IH]; intros i0 tr cs Hlen E d child Hd; simpl in E.
  - inversion E; subst. destruct d; discriminate.
  - destruct (child_box_lengths (Z.of_nat i0) (center nt) (bounds nt) 0 Hlen)
      as (cc & bb & EB & _ & _).
    rewrite EB in E. simpl in E.
    destruct (New cc bb) as [ch|e] eqn:EN; simpl in E; [|discriminate].
    destruct (make_children nt (S i0) todo) as [tr' [cs' err]| | |] eqn:EM;
      simpl in E; try discriminate.
    inversion E; subst. apply New_Ok in EN as (-> & _).
    destruct d as [|d]; simpl in Hd.
    + inversion Hd; subst. rewrite Nat.add_0_r. simpl. auto.
    + replace (i0 + S d)%nat with (S i0 + d)%nat by lia.
      eapply IH; eauto.
Qed.

(** For a node of dimension [n <= 62] a completed split creates [2^n]
    children; child [i] halves every bound and moves the centre up in
    dimension [j] when bit [j] of [i] is set, down otherwise; and the index
    computed for a point has bit [j] set exactly when the point's coordinate
    [j] is above the centre's. *)
Lemma split_geometry_below_63 (nt : NTree) (n : nat) (tr : trace)
  (cs : list (option NTree)) :
  List.length (center nt) = n -> List.length (bounds nt) = n -> (n <= 62)%nat ->
  make_children nt 0 (Z.to_nat (ModPowUint64 2 (Z.of_nat (N nt)) MaxInt)) =
    Done tr (cs, None) ->
  Z.of_nat (List.length cs) = 2 ^ Z.of_nat n /\
  (forall i child,
     nth_error cs i = Some (Some child) ->
     forall j cj bj,
       nth_error (center nt) j = Some cj -> nth_error (bounds nt) j = Some bj ->
       nth_error (bounds child) j = Some (bj / 2)%float /\
       nth_error (center child) j =
         Some (if Z.testbit (Z.of_nat i) (Z.of_nat j)
               then (cj + bj / 2)%float else (cj - bj / 2)%float)) /\
  (forall xs,
     0 <= child_index 0 (center nt) xs 0 < 2 ^ Z.of_nat n /\
     forall j, Z.testbit (child_index 0 (center nt) xs 0) (Z.of_nat j) =
               above (center nt) xs j).
Proof.
  intros Hc Hb Hn E. unfold N in E. rewrite Hc in E.
  rewrite (ModPowUint64_two n Hn) in E.
  destruct (make_children_Done n nt _ _ _ _ Hc Hb E) as (-> & _ & _ & Hlen).
  split; [|split].
  - rewrite Hlen, Z2Nat.id; [reflexivity|]. apply Z.pow_nonneg. lia.
  - intros i child Hi j cj bj Hcj Hbj.
    destruct (make_children_nth nt _ _ _ _ (eq_trans Hb (eq_sym Hc)) E i child Hi)
      as (EB & _).
    destruct (child_box_nth _ _ _ _ _ _ EB j cj bj Hcj Hbj) as [H1 H2].
    split; [exact H1|]. rewrite H2. simpl.
    rewrite hasBit_testbit; [reflexivity|].
    assert (j < n)%nat; [|lia]. rewrite <- Hc. apply nth_error_Some. congruence.
  - intros xs. split.
    + rewrite <- Hc. apply (child_index_range (center nt) xs O 0); [lia|].
      simpl. lia.
    + intros j. rewrite child_index_testbit by lia.
      rewrite Z.bits_0. simpl. now rewrite Nat.sub_0_r.
Qed.

(** ** Counters of a built tree *)

Lemma inserted_exact (n : nat) (pi0 : path) (t : NTree) (q : Point) (tr : trace) (t' : NTree) :
  inserted n pi0 t q tr t' -> exact_counts t -> exact_counts t'.
Proof.
  intros Hins.
  assert (Hroot : exact_counts t ->
                  count t' = wrap_uint64 (Z.of_nat (List.length (points t')))).
  { intros Hx. destruct (inserted_ok _ _ _ _ _ _ Hins) as (_ & _ & Hp & Hk & _).
    rewrite Hk, (Hx [] t eq_refl), (Permutation_length Hp). apply wrap_uint64_succ. }
  revert Hroot.
  induction Hins as
    [pi0 c b k q Hc Hb Hq Hin
    |pi0 c b cs k q child tra ta Hc Hb Hcs Hq Hin Htarget Enth Hins IH
    |pi0 c b k curP q cs tra ta trb t' Hc Hb HcurP Hq Hin EM Hins1 IH1 Hins2 IH2];
    intros Hroot Hx.
  - intros [|i pi] m E; cbn [node_at children] in E; try discriminate.
    inversion E; subst m. now apply Hroot.
  - intros [|i pi] m E; cbn [node_at children] in E.
    + inversion E; subst m. now apply Hroot.
    + destruct (Nat.eq_dec (Z.to_nat (child_index 0 c (Coords q) 0)) i) as [<-|Hne].
      * rewrite (nth_error_store_at_same _ _ _ _ Enth) in E.
        assert (Hxc : exact_counts child).
        { intros pi' m' E'.
          apply (Hx (Z.to_nat (child_index 0 c (Coords q) 0) :: pi')).
          cbn [node_at children]. now rewrite Enth. }
        refine (IH _ Hxc pi m E). intros _.
        destruct (inserted_ok _ _ _ _ _ _ Hins) as (_ & _ & Hp & Hk & _).
        rewrite Hk, (Hxc [] child eq_refl), (Permutation_length Hp).
        apply wrap_uint64_succ.
      * rewrite (nth_error_store_at_other _ _ _ _ Hne) in E.
        apply (Hx (i :: pi)). exact E.
  - assert (Hk : k = 1) by exact (Hx [] _ eq_refl).
    assert (Hx1 : exact_counts
                    (mkNTree c b None (Some cs) MuFree (wrap_uint64 (k - 1)))).
    { assert (HM := EM).
      apply (make_children_Done n) in HM as (_ & _ & Hpts & _); [|exact Hc|exact Hb].
      intros [|i pi] m E; cbn [node_at children] in E.
      - inversion E; subst m. rewrite points_unfold. cbn [p children opt_list app count].
        rewrite Hpts, Hk. reflexivity.
      - destruct (nth_error cs i) as [[ch|]|] eqn:Ei; try discriminate.
        assert (HM := EM).
        eapply make_children_nth in HM as (_ & Hp0 & Hc0 & Hk0);
          [|cbn [center bounds]; congruence|exact Ei].
        destruct pi as [|i' pi]; cbn [node_at] in E.
        + inversion E; subst m. rewrite points_unfold, Hp0, Hc0, Hk0. reflexivity.
        + rewrite Hc0 in E. discriminate. }
    apply IH2.
    + intros Hxa. destruct (inserted_ok _ _ _ _ _ _ Hins2) as (_ & _ & Hp & Hk' & _).
      rewrite Hk', (Hxa [] ta eq_refl), (Permutation_length Hp).
      apply wrap_uint64_succ.
    + apply IH1; [|exact Hx1]. intros _.
      destruct (inserted_ok _ _ _ _ _ _ Hins1) as (_ & _ & Hp & Hk' & _).
      rewrite Hk', (Hx1 [] _ eq_refl), (Permutation_length Hp).
      apply wrap_uint64_succ.
Qed.

Lemma built_exact (t : NTree) (ps : list Point) : built t ps -> exact_counts t.
Proof.
  induction 1 as [c b t HN|t ps fuel q tr t' Hb IH HA].
  - apply New_Ok in HN as (-> & _).
    intros [|i pi] m E; cbn [node_at children] in E; try discriminate.
    inversion E; subst. reflexivity.
  - destruct (built_inv _ _ Hb) as (n & Hwf & _).
    apply (Add_inserted fuel [] n) in HA; [|exact Hwf].
    eapply inserted_exact; eassumption.
Qed.

Lemma node_at_points_le (pi : path) :
  forall (t m : NTree),
    node_at t pi = Some m -> (List.length (points m) <= List.length (points t))%nat.
Proof.
  induction pi as [|i pi IH]; intros t m E; cbn [node_at] in E.
  - inversion E; subst. lia.
  - destruct (children t) as [cs|] eqn:Ec; [|discriminate].
    destruct (nth_error cs i) as [[ch|]|] eqn:Ei; try discriminate.
    apply IH in E. rewrite (points_unfold t), Ec, length_app.
    destruct (nth_error_split _ _ Ei) as (l1 & l2 & -> & _).
    rewrite flat_map_app, length_app. simpl. rewrite length_app. lia.
Qed.

(** In a tree built by fewer than [2^64 - 1] insertions no counter is at the
    top of its range. *)
Lemma built_counters_in_range (t : NTree) (ps : list Point) :
  built t ps -> Z.of_nat (List.length ps) < 2 ^ 64 - 1 -> counters_in_range t.
Proof.
  intros Hb HM pi m E.
  rewrite (built_exact _ _ Hb pi m E).
  destruct (built_inv _ _ Hb) as (n & _ & _ & Hp & _).
  pose proof (node_at_points_le _ _ _ E) as Hle.
  rewrite (Permutation_length Hp) in Hle.
  unfold wrap_uint64. rewrite Z.mod_small; lia.
Qed.

(** ** [Search] enters every child *)

Lemma Search_first_event (pi : path) (t : NTree) (p1 p2 : list float)
  (tr : trace) (r : res (list Point)) :
  Search pi t p1 p2 = Done tr r -> exists tr', tr = EvRLock pi :: tr'.
Proof.
  rewrite Search_unfold. unfold RLock.
  destruct (mutex t); cbn [emit bind]; [|discriminate]. intros H. 
  apply after_Done in H as (tr' & _ & ->). exists tr'. reflexivity.
Qed.

Lemma Search_each_enters (pi : path) (p1 p2 : list float) (cs : list (option NTree)) :
  forall (i0 : nat) (acc : list Point) (tr : trace) (r : list Point),
    Search_each pi p1 p2 cs i0 acc = Done tr (Ok r) ->
    forall d, (d < List.length cs)%nat -> In (EvRLock (pi ++ [(i0 + d)%nat])) tr.
Proof.
  induction cs as [|[ch|] cs IH]; intros i0 acc tr r E d Hd; simpl in *;
    try lia; try discriminate.
  apply bind_Done in E as (tr0 & [] & tr1 & _ & E & ->).
  apply bind_Done in E as (tr2 & [found|e] & tr3 & ES & E & ->); [|discriminate].
  apply Search_first_event in ES as (tr2' & ->).
  apply in_or_app. right. destruct d as [|d].
  - rewrite Nat.add_0_r. left. reflexivity.
  - apply in_or_app. right.
    replace (i0 + S d)%nat with (S i0 + d)%nat by lia.
    eapply IH; [exact E|lia].
Qed.

(** On a node with children, a [Search] that returns a result has entered
    every child, whatever the query. *)
Lemma Search_enters_every_child (pi : path) (t : NTree) (cs : list (option NTree))
  (p1 p2 : list float) (tr : trace) (found : list Point) :
  children t = Some cs ->
  Search pi t p1 p2 = Done tr (Ok found) ->
  forall i, (i < List.length cs)%nat -> In (EvRLock (pi ++ [i])) tr.
Proof.
  intros Hc E i Hi. rewrite Search_unfold, Hc in E.
  apply bind_Done in E as (tr0 & [] & tr1 & _ & E & ->).
  destruct (_ || _); [inversion E|].
  apply bind_Done in E as (tr2 & [r|e] & tr3 & ES & E & ->); [|inversion E].
  apply in_or_app. right. apply in_or_app. left.
  exact (Search_each_enters pi p1 p2 cs O [] tr2 r ES i Hi).
Qed.

(** ** A split whose child construction fails *)


(** * The claims *)

(** C1 (as amended).  For a tree built by successful insertions of points
    none of whose coordinates is NaN, and a query [lo], [hi] of the tree's
    dimension with [lo_i <= hi_i] throughout, [Search] returns without error
    exactly the inserted points lying in the closed box, each as often as it
    was inserted. *)
Theorem Search_returns_inserted_points_in_box
  (t : NTree) (ps : list Point) (lo hi : list float) :
  built t ps ->
  List.length lo = N t -> List.length hi = N t ->
  ordered lo hi ->
  Forall no_nan ps ->
  exists tr found,
    Search [] t lo hi = Done tr (Ok found) /\
    Permutation found (filter (fun q => in_box (Coords q) lo hi) ps).
Proof.
  intros Hb Hlo Hhi Ho Hnan.
  destruct (built_inv _ _ Hb) as (n & Hwf & _ & Hp & _ & _).
  unfold N in *. rewrite (wf_center _ _ Hwf) in *.
  destruct (Search_wf n t Hwf [] lo hi Hlo Hhi) as (tr & E & _).
  exists tr, (filter (fun q => matches (Coords q) lo hi) (points t)).
  split; [exact E|].
  eapply Permutation_trans; [apply filter_Permutation; exact Hp|].
  erewrite filter_ext_in; [reflexivity|].
  intros q Hq. apply matches_in_box; [|exact Ho].
  rewrite Forall_forall in Hnan. now apply Hnan.
Qed.

Lemma Search_returns_inserted_points_in_box_witness :
  exists tr found,
    Search [] quad2 [(-1)%float; (-1)%float] [0%float; 0%float] = Done tr (Ok found) /\
    Permutation found
      (filter (fun q => in_box (Coords q) [(-1)%float; (-1)%float] [0%float; 0%float])
         [pB; pA]).
Proof.
  apply (Search_returns_inserted_points_in_box quad2 [pB; pA]).
  - exact built_quad2.
  - reflexivity.
  - reflexivity.
  - repeat constructor.
  - repeat constructor.
Defined.

(** C1 as stated fails: a point with a NaN coordinate is inserted
    successfully and returned by a query whose box it is not in. *)
Lemma Search_returns_nan_point :
  built lineNaN [pNaN] /\
  ordered [0%float] [1%float] /\
  ~ (exists tr found,
       Search [] lineNaN [0%float] [1%float] = Done tr (Ok found) /\
       Permutation found (filter (fun q => in_box (Coords q) [0%float] [1%float]) [pNaN])).
Proof.
  split; [exact built_lineNaN|]. split; [repeat constructor|].
  intros (tr & found & E & HP).
  vm_compute in E. inversion E; subst.
  vm_compute in HP. apply Permutation_sym, Permutation_nil in HP. discriminate.
Qed.

(** C2 (the code does otherwise).  In the tree [quad2] the query box
    [(-1,-1)..(-0.25,-0.25)] meets only child 0.  Children 1, 2 and 3 are
    outside it by the very test the loop evaluates, yet [Search] enters each
    of them: their locks are taken and released in turn. *)
Theorem Search_enters_children_outside_the_query :
  let lo := [(-1)%float; (-1)%float] in
  let hi := [(-0.25)%float; (-0.25)%float] in
  built quad2 [pB; pA] /\
  (forall i, In i [1; 2; 3]%nat ->
     exists child, node_at quad2 [i] = Some child /\
                   outside (center child) (bounds child) lo hi = true) /\
  Search [] quad2 lo hi =
    Done [EvRLock []; EvRLock [0%nat]; EvRUnlock [0%nat];
          EvRLock [1%nat]; EvRUnlock [1%nat];
          EvRLock [2%nat]; EvRUnlock [2%nat];
          EvRLock [3%nat]; EvRUnlock [3%nat]; EvRUnlock []]
         (Ok [pA]).
Proof.
  cbv zeta. split; [exact built_quad2|]. split.
  - intros i [<-|[<-|[<-|[]]]]; eexists; split; vm_compute; reflexivity.
  - vm_compute. reflexivity.
Qed.

(** C3 (as amended).  Counts are never negative, and a successful insertion
    into a tree built by fewer than [2^64 - 1] insertions (so that no 64-bit
    counter wraps around) leaves every node of the tree in place with a count
    that is not lower than before. *)
Theorem successful_Add_lowers_no_count
  (t : NTree) (ps : list Point) (fuel : nat) (q : Point) (tr : trace) (t' : NTree) :
  built t ps ->
  Z.of_nat (List.length ps) < 2 ^ 64 - 1 ->
  Add fuel [] t (Some q) = Done tr (t', None) ->
  forall pi m, node_at t pi = Some m ->
    exists m', node_at t' pi = Some m' /\ 0 <= count m <= count m'.
Proof.
  intros Hb HM HA.
  destruct (built_inv _ _ Hb) as (n & Hwf & _).
  apply (Add_inserted fuel [] n) in HA; [|exact Hwf].
  apply (inserted_counts n [] t q tr t' HA).
  exact (built_counters_in_range t ps Hb HM).
Qed.

Lemma successful_Add_lowers_no_count_witness :
  exists m', node_at quad2 [] = Some m' /\ 0 <= count quad1 <= count m'.
Proof.
  apply (successful_Add_lowers_no_count quad1 [pA] 8 pB
           (events (Add 8 [] quad1 (Some pB))) quad2 built_quad1).
  - reflexivity.
  - vm_compute. reflexivity.
  - reflexivity.
Defined.

(** C3 as stated fails: the split step of a successful insertion writes the
    node's count down from 1 to 0 before the displaced point is re-added. *)
Lemma split_step_lowers_the_count :
  built quad1 [pA] /\
  exists tr t',
    Add 8 [] quad1 (Some pB) = Done tr (t', None) /\
    In (EvCount [] 1 0) tr /\
    ~ never_lowered tr.
Proof.
  split; [exact built_quad1|].
  eexists. eexists. split; [vm_compute; reflexivity|].
  split.
  - repeat (try (left; reflexivity); right).
  - intros H. specialize (H [] 1 0). cbv beta in H.
    assert (1 <= 0); [|lia]. apply H.
    repeat (try (left; reflexivity); right).
Qed.

(** C4 (the code does otherwise).  Splitting the node of [sliver1] halves its
    bounds to 0, so [New] fails for the first child.  [Add] returns that
    error, but the node is not as it was: its children are now a slice of two
    nil entries next to the point it still holds, and its mutex is still held
    exclusively, so that a later [Count()] on it blocks. *)
Theorem failed_split_leaves_node_changed_and_locked :
  built sliver1 [pLow] /\
  exists t',
    Add 8 [] sliver1 (Some pHigh) =
      Done [EvRLock []; EvRUnlock []; EvLock []]
           (t', Some "Dimension 0 has bounding size <= 0.") /\
    t' <> sliver1 /\
    children sliver1 = None /\ children t' = Some [None; None] /\
    p t' = Some pLow /\
    mutex sliver1 = MuFree /\ mutex t' = MuWrite /\
    Count [] t' = Blocked [].
Proof.
  split; [exact built_sliver1|]. eexists. split; [vm_compute; reflexivity|].
  split; [|repeat split]. intros H.
  apply (f_equal mutex) in H. vm_compute in H. discriminate.
Qed.

(** A failed insertion that loses a stored point: in [coarse1] the split puts
    the upper child at centre 2^53 with bounds 1, whose upper corner rounds
    to 2^53, so the child rejects the displaced point 2^53 + 2.  [Add]
    returns the error with the point gone and the root's count at 0. *)
Lemma failed_insertion_loses_the_stored_point :
  built coarse1 [pTop] /\
  points coarse1 = [pTop] /\ count coarse1 = 1 /\
  exists tr t',
    Add 8 [] coarse1 (Some pBelow) =
      Done tr (t', Some "Point doesn't fall within bounds of NTree.") /\
    points t' = [] /\ count t' = 0 /\ In (EvCount [] 1 0) tr.
Proof.
  split; [exact built_coarse1|]. split; [reflexivity|]. split; [reflexivity|].
  eexists. eexists. split; [vm_compute; reflexivity|].
  split; [reflexivity|]. split; [reflexivity|].
  repeat (try (left; reflexivity); right).
Qed.

(** C5 (as amended).  An operation holds the locks of the nodes on its
    current path together.  A [Search] keeps a node's shared lock until its
    children have been searched, so at its deepest it holds as many locks as
    the tree is high.  A successful [Add] on a node with children keeps the
    node's exclusive lock while it inserts into the addressed child, so it
    holds at least two locks at once; only when it splits the node does it
    release the node's lock before recursing.  Both have released every lock
    they took when they return. *)
Theorem locks_are_held_along_the_path (t : NTree) (ps : list Point) :
  built t ps ->
  (forall lo hi,
     List.length lo = N t -> List.length hi = N t ->
     exists tr r,
       Search [] t lo hi = Done tr r /\ held 0 tr = O /\ peak 0 tr = height t) /\
  (forall fuel q tr t',
     Add fuel [] t (Some q) = Done tr (t', None) ->
     held 0 tr = O /\
     (children t <> None -> (2 <= peak 0 tr)%nat) /\
     (forall curP, p t = Some curP ->
        exists rest,
          tr = [EvRLock []; EvRUnlock []; EvLock [];
                EvCount [] (count t) (wrap_uint64 (count t - 1)); EvUnlock []] ++ rest)).
Proof.
  intros Hb. destruct (built_inv _ _ Hb) as (n & Hwf & _). split.
  - intros lo hi Hlo Hhi. unfold N in *. rewrite (wf_center _ _ Hwf) in *.
    destruct (Search_wf n t Hwf [] lo hi Hlo Hhi) as (tr & E & Htr).
    destruct (Htr O) as [Hh Hp]. eauto.
  - intros fuel q tr t' HA.
    apply (Add_inserted fuel [] n) in HA; [|exact Hwf].
    destruct (inserted_locks _ _ _ _ _ _ HA O) as [Hh Hp].
    split; [exact Hh|]. split.
    + intros Hc. destruct (children t); [exact Hp|congruence].
    + intros curP E. inversion HA; subst; cbn [p] in E; try discriminate.
      cbn [count]. eexists. reflexivity.
Qed.

Lemma locks_are_held_along_the_path_witness :
  (exists tr r,
     Search [] quad2 [(-1)%float; (-1)%float] [0%float; 0%float] = Done tr r /\
     held 0 tr = O /\ peak 0 tr = height quad2) /\
  held 0 (events (Add 8 [] quad2 (Some pC))) = O /\
  (2 <= peak 0 (events (Add 8 [] quad2 (Some pC))))%nat.
Proof.
  destruct (locks_are_held_along_the_path quad2 [pB; pA] built_quad2) as [HS HA].
  split.
  - apply HS; reflexivity.
  - destruct (HA 8%nat pC (events (Add 8 [] quad2 (Some pC))) (added quad2 pC))
      as (Hh & Hp & _).
    + vm_compute. reflexivity.
    + split; [exact Hh|]. apply Hp. discriminate.
Defined.

(** C5 as stated fails: a search of the two-level tree takes the lock of each
    child while it holds the root's, and an insertion into it takes the locks
    of child 3 while it holds the root's exclusively. *)
Lemma two_locks_are_held_at_once :
  built quad2 [pB; pA] /\
  events (Search [] quad2 [(-1)%float; (-1)%float] [0%float; 0%float]) =
    [EvRLock []; EvRLock [0%nat]; EvRUnlock [0%nat];
     EvRLock [1%nat]; EvRUnlock [1%nat];
     EvRLock [2%nat]; EvRUnlock [2%nat];
     EvRLock [3%nat]; EvRUnlock [3%nat]; EvRUnlock []] /\
  ~ one_lock_at_a_time
      (events (Search [] quad2 [(-1)%float; (-1)%float] [0%float; 0%float])) /\
  (exists tr t',
     Add 8 [] quad2 (Some pC) =
       Done ([EvRLock []; EvRUnlock []; EvLock [];
              EvRLock [3%nat]; EvRUnlock [3%nat]; EvLock [3%nat]] ++ tr) (t', None) /\
     ~ one_lock_at_a_time
         ([EvRLock []; EvRUnlock []; EvLock [];
           EvRLock [3%nat]; EvRUnlock [3%nat]; EvLock [3%nat]] ++ tr)).
Proof.
  split; [exact built_quad2|]. split; [vm_compute; reflexivity|]. split.
  - unfold one_lock_at_a_time. vm_compute. intros H. lia.
  - eexists. eexists. split; [vm_compute; reflexivity|].
    unfold one_lock_at_a_time. vm_compute. intros H. lia.
Qed.

(** C6.  [New] succeeds for every dimension from 1 to 63 with bounds of the
    same length that are all strictly positive, and returns a leaf with no
    point, no children and count 0 whose [N()] is that dimension; it fails
    exactly when the lengths differ, the dimension is 0 or above 63, or some
    bound is [<= 0]. *)
Theorem New_succeeds_and_fails_exactly (c b : list float) :
  ((1 <= List.length c <= 63)%nat ->
   List.length c = List.length b ->
   Forall (fun x => (0 <? x)%float = true) b ->
   exists t,
     New c b = Ok t /\ p t = None /\ children t = None /\ count t = 0 /\
     center t = c /\ bounds t = b /\ N t = List.length c) /\
  ((exists e, New c b = Error e) <->
   (List.length c <> List.length b \/ List.length c = O \/ (63 < List.length c)%nat \/
    Exists (fun x => (x <=? 0)%float = true) b)).
Proof.
  assert (Hfirst : forall bs i,
            first_nonpositive i bs = None <->
            ~ Exists (fun x => (x <=? 0)%float = true) bs).
  { induction bs as [|x bs IH]; intros i; simpl.
    - split; [intros _ H; inversion H|reflexivity].
    - destruct (x <=? 0)%float eqn:E.
      + split; [discriminate|]. intros H. exfalso. apply H. now left.
      + rewrite IH. split.
        * intros H H'. inversion H' as [? ? Hx|? ? Hx]; subst; [congruence|tauto].
        * intros H H'. apply H. now right. }
  unfold New, MaxN. split.
  - intros Hn Hl Hpos.
    replace (63 <? List.length c)%nat with false by (symmetry; apply Nat.ltb_ge; lia).
    replace (List.length c =? List.length b)%nat with true
      by (symmetry; now apply Nat.eqb_eq).
    replace (List.length c =? 0)%nat with false by (symmetry; apply Nat.eqb_neq; lia).
    simpl.
    replace (first_nonpositive 0 b) with (@None nat).
    + eexists. repeat split.
    + symmetry. apply Hfirst. intros H. rewrite Exists_exists in H.
      destruct H as (x & Hx & Hle). rewrite Forall_forall in Hpos.
      apply Hpos in Hx. apply ltb_leb_false in Hx. congruence.
  - destruct (63 <? List.length c)%nat eqn:E1.
    { apply Nat.ltb_lt in E1. split; eauto. }
    apply Nat.ltb_ge in E1.
    destruct (List.length c =? List.length b)%nat eqn:E2; simpl.
    2:{ apply Nat.eqb_neq in E2. split; eauto. }
    apply Nat.eqb_eq in E2.
    destruct (List.length c =? 0)%nat eqn:E3.
    { apply Nat.eqb_eq in E3. split; eauto. }
    apply Nat.eqb_neq in E3.
    destruct (first_nonpositive 0 b) as [i|] eqn:E4.
    + split; [|eauto]. intros _. do 3 right.
      destruct (Hfirst b O) as [_ H].
      destruct (Exists_dec (fun x => (x <=? 0)%float = true) b) as [Hex|Hno];
        [intros x; destruct (x <=? 0)%float; [left|right]; congruence|exact Hex|].
      apply H in Hno. congruence.
    + split.
      * intros [e He]. discriminate.
      * intros [H|[H|[H|H]]]; try lia. apply Hfirst in E4. tauto.
Qed.

Lemma New_succeeds_and_fails_exactly_witness :
  exists t,
    New [0%float; 0%float; 0%float] [1%float; 2%float; 0.5%float] = Ok t /\
    p t = None /\ children t = None /\ count t = 0 /\
    center t = [0%float; 0%float; 0%float] /\
    bounds t = [1%float; 2%float; 0.5%float] /\ N t = 3%nat.
Proof.
  apply (proj1 (New_succeeds_and_fails_exactly
                  [0%float; 0%float; 0%float] [1%float; 2%float; 0.5%float])).
  - simpl. lia.
  - reflexivity.
  - repeat constructor.
Defined.

(** C7 (the code does otherwise).  For a node of dimension 63 the size of the
    children slice is [2^63 mod (2^63 - 1) = 1], so the split creates one
    child where [2^63] are addressed, and re-adding a point whose index is
    not 0 indexes out of range. *)
Theorem split_in_63_dimensions_creates_one_child :
  built wide1 [p63 (-0.5)%float] /\ N wide1 = 63%nat /\
  ModPowUint64 2 (Z.of_nat (N wide1)) MaxInt = 1 /\
  (exists child,
     make_children (set_mutex wide1 MuWrite) 0
       (Z.to_nat (ModPowUint64 2 (Z.of_nat (N wide1)) MaxInt)) =
     Done [] ([Some child], None)) /\
  child_index 0 (center wide1) (Coords (p63 0.5%float)) 0 = 2 ^ 63 - 1 /\
  Add 8 [] wide1 (Some (p63 0.5%float)) =
    Panic [EvRLock []; EvRUnlock []; EvLock []; EvCount [] 1 0; EvUnlock [];
           EvRLock []; EvRUnlock []; EvLock [];
           EvRLock [0%nat]; EvRUnlock [0%nat]; EvLock [0%nat];
           EvCount [0%nat] 0 1; EvUnlock [0%nat]; EvCount [] 0 1; EvUnlock [];
           EvRLock []; EvRUnlock []; EvLock []]
          "index out of range".
Proof.
  split; [exact built_wide1|]. split; [reflexivity|]. split; [reflexivity|].
  split; [eexists; vm_compute; reflexivity|]. split; vm_compute; reflexivity.
Qed.

(** C8.  After [M] successful insertions into a freshly constructed root
    (with [M] below the range of the 64-bit counter), the root's [Count()]
    returns [M], and a [Search] over the corners of the root returns the [M]
    inserted points. *)
Theorem Count_and_full_Search_after_insertions (t : NTree) (ps : list Point) :
  built t ps ->
  Z.of_nat (List.length ps) < 2 ^ 64 ->
  (exists tr, Count [] t = Done tr (Z.of_nat (List.length ps))) /\
  (exists tr lo hi tr' found,
     BoundPoints [] t = Done tr (lo, hi) /\
     Search [] t lo hi = Done tr' (Ok found) /\
     Permutation found ps /\
     List.length found = List.length ps).
Proof.
  intros Hb HM.
  destruct (built_inv _ _ Hb) as (n & Hwf & _ & Hp & Hk & Hall).
  split.
  - unfold Count, RLock. rewrite (wf_mutex _ _ Hwf). simpl.
    eexists. f_equal. rewrite Hk. unfold wrap_uint64. apply Z.mod_small. lia.
  - destruct (corners_lengths (center t) (bounds t)) as (lo & hi & EC & Hlo & Hhi).
    { rewrite (wf_bounds _ _ Hwf), (wf_center _ _ Hwf). reflexivity. }
    rewrite (wf_center _ _ Hwf) in Hlo, Hhi.
    destruct (Search_wf n t Hwf [] lo hi Hlo Hhi) as (tr' & E & _).
    assert (Hfound : filter (fun q => matches (Coords q) lo hi) (points t) = points t).
    { apply filter_all. apply (Forall_Permutation _ ps); [now symmetry|].
      rewrite Forall_forall in *. intros q Hq. destruct (Hall q Hq) as [_ Hin].
      eapply inside_matches_corners; eassumption. }
    rewrite Hfound in E.
    exists [EvRLock []; EvRUnlock []], lo, hi, tr', (points t).
    repeat split; try assumption.
    + unfold BoundPoints, RLock. rewrite (wf_mutex _ _ Hwf), EC. reflexivity.
    + now apply Permutation_length.
Qed.

Lemma Count_and_full_Search_after_insertions_witness :
  (exists tr, Count [] quad2 = Done tr 2) /\
  (exists tr lo hi tr' found,
     BoundPoints [] quad2 = Done tr (lo, hi) /\
     Search [] quad2 lo hi = Done tr' (Ok found) /\
     Permutation found [pB; pA] /\
     List.length found = 2%nat).
Proof.
  apply (Count_and_full_Search_after_insertions quad2 [pB; pA]).
  - exact built_quad2.
  - reflexivity.
Defined.

(** C9.  On a node whose mutex is free, [Contains] with a nil point returns
    the error "Point is nil", and so does [Add], which leaves the node as it
    was; neither panics. *)
Theorem nil_point_is_rejected (fuel : nat) (pi : path) (t : NTree) :
  mutex t = MuFree ->
  Contains pi t None = Done [EvRLock pi; EvRUnlock pi] (Error "Point is nil") /\
  Add (S fuel) pi t None = Done [EvRLock pi; EvRUnlock pi] (t, Some "Point is nil").
Proof.
  intros Hm. assert (E : Contains pi t None =
                         Done [EvRLock pi; EvRUnlock pi] (Error "Point is nil")).
  { unfold Contains, RLock. rewrite Hm. reflexivity. }
  split; [exact E|]. cbn [Add]. rewrite E. reflexivity.
Qed.

Lemma nil_point_is_rejected_witness :
  Contains [] quad2 None = Done [EvRLock []; EvRUnlock []] (Error "Point is nil") /\
  Add 1 [] quad2 None = Done [EvRLock []; EvRUnlock []] (quad2, Some "Point is nil").
Proof.
  apply (nil_point_is_rejected O [] quad2). reflexivity.
Defined.

(** C10 (as amended).  On a tree built by successful insertions of points
    without NaN coordinates, a query of the tree's dimension with
    [lo_i > hi_i] in some dimension returns the empty result and no error. *)
Theorem Search_inverted_query_is_empty
  (t : NTree) (ps : list Point) (lo hi : list float) :
  built t ps ->
  Forall no_nan ps ->
  List.length lo = N t -> List.length hi = N t ->
  inverted lo hi ->
  exists tr, Search [] t lo hi = Done tr (Ok []).
Proof.
  intros Hb Hnan Hlo Hhi Hinv.
  destruct (built_inv _ _ Hb) as (n & Hwf & _ & Hp & _ & Hall).
  unfold N in *. rewrite (wf_center _ _ Hwf) in *.
  destruct (Search_wf n t Hwf [] lo hi Hlo Hhi) as (tr & E & _).
  exists tr. rewrite E. do 2 f_equal. apply filter_none.
  apply (Forall_Permutation _ ps); [now symmetry|].
  rewrite Forall_forall in *. intros q Hq.
  destruct (Hall q Hq) as [Hlen _].
  apply matches_inverted; try congruence. now apply Hnan.
Qed.

Lemma Search_inverted_query_is_empty_witness :
  exists tr, Search [] quad2 [1%float; (-1)%float] [0%float; 1%float] = Done tr (Ok []).
Proof.
  apply (Search_inverted_query_is_empty quad2 [pB; pA]).
  - exact built_quad2.
  - repeat constructor.
  - reflexivity.
  - reflexivity.
  - exists O, 1%float, 0%float. repeat split.
Defined.

(** C10 as stated fails: the stored NaN point is returned by a query with
    [lo > hi]. *)
Lemma Search_inverted_query_returns_nan_point :
  built lineNaN [pNaN] /\
  inverted [1%float] [0%float] /\
  Search [] lineNaN [1%float] [0%float] = Done [EvRLock []; EvRUnlock []] (Ok [pNaN]).
Proof.
  split; [exact built_lineNaN|]. split.
  - exists O, 1%float, 0%float. repeat split.
  - vm_compute. reflexivity.
Qed.

(** * Further facts *)

(** ** More on the order of binary64 values *)

Section FloatOrderMore.

Local Open Scope float_scope.

Ltac cmp_cases' :=
  repeat match goal with
  | |- context [(?x ?= ?y)%Z] => destruct (Z.compare_spec x y); subst
  | H : context [(?x ?= ?y)%Z] |- _ => destruct (Z.compare_spec x y); subst
  | |- context [Pos.compare_cont Eq ?x ?y] =>
      change (Pos.compare_cont Eq x y) with (Pos.compare x y)
  | H : context [Pos.compare_cont Eq ?x ?y] |- _ =>
      change (Pos.compare_cont Eq x y) with (Pos.compare x y) in H
  | |- context [(?x ?= ?y)%positive] => destruct (Pos.compare_spec x y); subst
  | H : context [(?x ?= ?y)%positive] |- _ => destruct (Pos.compare_spec x y); subst
  end.

Lemma SFltb_leb_trans (a b c : spec_float) :
  SFltb a b = true -> SFleb b c = true -> SFltb a c = true.
Proof.
  unfold SFleb, SFltb.
  destruct a as [sa|sa| |sa ma ea], b as [sb|sb| |sb mb eb], c as [sc|sc| |sc mc ec];
    simpl; try discriminate; try reflexivity;
    try (destruct sa; simpl; try discriminate; try reflexivity);
    try (destruct sb; simpl; try discriminate; try reflexivity);
    try (destruct sc; simpl; try discriminate; try reflexivity);
    intros H1 H2; cmp_cases'; simpl in *; try discriminate; try reflexivity; try lia.
Qed.

Lemma SFleb_ltb_trans (a b c : spec_float) :
  SFleb a b = true -> SFltb b c = true -> SFltb a c = true.
Proof.
  unfold SFleb, SFltb.
  destruct a as [sa|sa| |sa ma ea], b as [sb|sb| |sb mb eb], c as [sc|sc| |sc mc ec];
    simpl; try discriminate; try reflexivity;
    try (destruct sa; simpl; try discriminate; try reflexivity);
    try (destruct sb; simpl; try discriminate; try reflexivity);
    try (destruct sc; simpl; try discriminate; try reflexivity);
    intros H1 H2; cmp_cases'; simpl in *; try discriminate; try reflexivity; try lia.
Qed.

Lemma ltb_leb_trans (x y z : float) :
  (x <? y) = true -> (y <=? z) = true -> (x <? z) = true.
Proof. rewrite !FloatAxioms.ltb_spec, FloatAxioms.leb_spec. apply SFltb_leb_trans. Qed.

Lemma leb_ltb_trans (x y z : float) :
  (x <=? y) = true -> (y <? z) = true -> (x <? z) = true.
Proof. rewrite !FloatAxioms.ltb_spec, FloatAxioms.leb_spec. apply SFleb_ltb_trans. Qed.

(** No value is below itself, NaN included. *)
Lemma ltb_irrefl (x : float) : (x <? x) = false.
Proof.
  rewrite FloatAxioms.ltb_spec. unfold SFltb.
  destruct (Prim2SF x) as [s|s| |s m e] eqn:E; simpl; try reflexivity.
  - destruct s; reflexivity.
  - destruct s; rewrite Z.compare_refl;
      change (Pos.compare_cont Eq m m) with (Pos.compare m m);
      now rewrite Pos.compare_refl.
Qed.

End FloatOrderMore.

(** ** Properties of single nodes along a successful [Add] *)

Lemma wf_node_at (n : nat) (pi : path) :
  forall t m, wf n t -> node_at t pi = Some m -> wf n m.
Proof.
  induction pi as [|i pi IH]; intros t m Hwf E; cbn [node_at] in E.
  - inversion E; subst. exact Hwf.
  - destruct (children t) as [cs|] eqn:Ec; [|discriminate].
    destruct (nth_error cs i) as [[ch|]|] eqn:Ei; try discriminate.
    inversion Hwf as [c b op k Hc Hb Hop|c b cs' k Hc Hb Hcs]; subst;
      cbn [children] in Ec; inversion Ec; subst.
    destruct (wf_children_nth _ _ _ _ Hcs Ei) as (ch' & E' & Hch).
    inversion E'; subst. eapply IH; eassumption.
Qed.

Lemma all_nodes_root (I : NTree -> Prop) (t : NTree) : all_nodes I t -> I t.
Proof. intros H. exact (H [] t eq_refl). Qed.

Lemma all_nodes_child (I : NTree -> Prop) (t : NTree) (cs : list (option NTree))
  (i : nat) (c : NTree) :
  all_nodes I t -> children t = Some cs -> nth_error cs i = Some (Some c) ->
  all_nodes I c.
Proof.
  intros H Hc Hi pi m E. apply (H (i :: pi)). cbn [node_at]. now rewrite Hc, Hi.
Qed.

Lemma all_nodes_intro (I : NTree -> Prop) (t : NTree) :
  I t ->
  (forall cs i c, children t = Some cs -> nth_error cs i = Some (Some c) ->
                  all_nodes I c) ->
  all_nodes I t.
Proof.
  intros Hr Hc [|i pi] m E; cbn [node_at] in E.
  - inversion E; subst. exact Hr.
  - destruct (children t) as [cs|] eqn:Ec; [|discriminate].
    destruct (nth_error cs i) as [[ch|]|] eqn:Ei; try discriminate.
    exact (Hc cs i ch eq_refl Ei pi m E).
Qed.

(** The pattern shared by the invariants below: a property of single nodes
    that the three branches of [Add] establish at the node they leave holds
    at every node after a successful [Add] if it held at every node before. *)
Lemma inserted_all_nodes (I : NTree -> Prop) (n : nat) :
  (forall pi c b k q,
     inserted n pi (mkNTree c b None None MuFree k) q
       [EvRLock pi; EvRUnlock pi; EvLock pi;
        EvCount pi k (wrap_uint64 (k + 1)); EvUnlock pi]
       (mkNTree c b (Some q) None MuFree (wrap_uint64 (k + 1))) ->
     I (mkNTree c b (Some q) None MuFree (wrap_uint64 (k + 1)))) ->
  (forall pi c b cs k q child tra ta,
     I (mkNTree c b None (Some cs) MuFree k) ->
     0 <= child_index 0 c (Coords q) 0 ->
     nth_error cs (Z.to_nat (child_index 0 c (Coords q) 0)) = Some (Some child) ->
     inserted n (pi ++ [Z.to_nat (child_index 0 c (Coords q) 0)]) child q tra ta ->
     inside c b (Coords q) = true ->
     I (mkNTree c b None
          (Some (store_at cs (Z.to_nat (child_index 0 c (Coords q) 0)) (Some ta)))
          MuFree (wrap_uint64 (k + 1)))) ->
  (forall c b k curP cs,
     List.length c = n -> List.length b = n ->
     I (mkNTree c b (Some curP) None MuFree k) ->
     make_children (mkNTree c b (Some curP) None MuWrite k) 0
       (Z.to_nat (ModPowUint64 2 (Z.of_nat (List.length c)) MaxInt)) = Done [] (cs, None) ->
     I (mkNTree c b None (Some cs) MuFree (wrap_uint64 (k - 1))) /\
     forall i ch, nth_error cs i = Some (Some ch) -> I ch) ->
  forall pi t q tr t',
    inserted n pi t q tr t' -> all_nodes I t -> all_nodes I t'.
Proof.
  intros Hstore Hdescend Hsplit pi t q tr t' Hins.
  induction Hins as
    [pi c b k q Hc Hb Hq Hin
    |pi c b cs k q child tra ta Hc Hb Hcs Hq Hin Htarget Enth Hins IH
    |pi c b k curP q cs tra ta trb t' Hc Hb HcurP Hq Hin EM Hins1 IH1 Hins2 IH2];
    intros Hall.
  - apply all_nodes_intro.
    + apply (Hstore pi). now constructor.
    + intros cs i ch E. discriminate.
  - apply all_nodes_intro.
    + apply (Hdescend pi c b cs k q child tra ta); try assumption.
      exact (all_nodes_root _ _ Hall).
    + intros cs' i ch E Ei. cbn [children] in E. inversion E; subst cs'.
      destruct (Nat.eq_dec (Z.to_nat (child_index 0 c (Coords q) 0)) i) as [<-|Hne].
      * rewrite (nth_error_store_at_same _ _ _ _ Enth) in Ei. inversion Ei; subst ch.
        apply IH. eapply all_nodes_child; [exact Hall|reflexivity|exact Enth].
      * rewrite (nth_error_store_at_other _ _ _ _ Hne) in Ei.
        eapply all_nodes_child; [exact Hall|reflexivity|exact Ei].
  - apply IH2, IH1.
    destruct (Hsplit c b k curP cs Hc Hb (all_nodes_root _ _ Hall) EM) as [Hr Hch].
    apply all_nodes_intro; [exact Hr|].
    intros cs' i ch E Ei. cbn [children] in E. inversion E; subst cs'.
    assert (HM := EM).
    eapply make_children_nth in HM as (_ & Hp0 & Hc0 & Hk0);
      [|cbn [center bounds]; congruence|exact Ei].
    apply all_nodes_intro; [exact (Hch i ch Ei)|].
    intros cs'' j ch' E'. rewrite Hc0 in E'. discriminate.
Qed.

Lemma fresh_children (c b : list float) (op : option Point) (m : RWMutex) (k : Z)
  (i0 todo : nat) (tr : trace) (cs : list (option NTree)) (i : nat) (ch : NTree) :
  List.length b = List.length c ->
  make_children (mkNTree c b op None m k) i0 todo = Done tr (cs, None) ->
  nth_error cs i = Some (Some ch) ->
  p ch = None /\ children ch = None /\ count ch = 0 /\ points ch = [].
Proof.
  intros Hl EM Ei.
  eapply make_children_nth in EM as (_ & Hp0 & Hc0 & Hk0); [|exact Hl|exact Ei].
  repeat split; try assumption. rewrite points_unfold, Hp0, Hc0. reflexivity.
Qed.

Lemma inserted_boxed (n : nat) (pi : path) (t : NTree) (q : Point) (tr : trace) (t' : NTree) :
  inserted n pi t q tr t' -> all_nodes boxed_node t -> all_nodes boxed_node t'.
Proof.
  apply inserted_all_nodes.
  - intros pi0 c b k q0 Hins. apply inserted_ok in Hins as (_ & _ & _ & _ & _ & _ & _ & Hin).
    unfold boxed_node. cbn [points center bounds opt_list app] in *.
    constructor; [exact Hin|constructor].
  - intros pi0 c b cs k q0 child tra ta HI Htarget Enth Hins Hin.
    apply inserted_ok in Hins as (_ & _ & Hp & _).
    unfold boxed_node in *. rewrite points_unfold in HI |- *.
    cbn [p children center bounds opt_list app] in HI |- *.
    eapply Forall_Permutation; [symmetry; eapply store_at_points; eassumption|].
    constructor; [exact Hin|exact HI].
  - intros c b k curP cs Hc Hb HI EM. split.
    + assert (HM := EM).
      apply (make_children_Done n) in HM as (_ & _ & Hpts & _); [|exact Hc|exact Hb].
      unfold boxed_node. rewrite points_unfold. cbn [p children opt_list app].
      rewrite Hpts. constructor.
    + intros i ch Ei.
      destruct (fresh_children _ _ _ _ _ _ _ _ _ _ _ (eq_trans Hb (eq_sym Hc)) EM Ei)
        as (_ & _ & _ & Hpts).
      unfold boxed_node. rewrite Hpts. constructor.
Qed.

Lemma built_boxed (t : NTree) (ps : list Point) : built t ps -> all_nodes boxed_node t.
Proof.
  induction 1 as [c b t HN|t ps fuel q tr t' Hb IH HA].
  - apply New_Ok in HN as (-> & _). apply all_nodes_intro.
    + constructor.
    + intros cs i ch E. discriminate.
  - destruct (built_inv _ _ Hb) as (n & Hwf & _).
    apply (Add_inserted fuel [] n) in HA; [|exact Hwf].
    eapply inserted_boxed; eassumption.
Qed.

Lemma inserted_routed (n : nat) (pi : path) (t : NTree) (q : Point) (tr : trace) (t' : NTree) :
  inserted n pi t q tr t' -> all_nodes routed_node t -> all_nodes routed_node t'.
Proof.
  apply inserted_all_nodes.
  - intros pi0 c b k q0 _ cs i ch q1 E. discriminate.
  - intros pi0 c b cs k q0 child tra ta HI Htarget Enth Hins Hin cs' i ch q1 E Ei Hq1.
    cbn [children center] in *. inversion E; subst cs'.
    apply inserted_ok in Hins as (_ & _ & Hp & _).
    destruct (Nat.eq_dec (Z.to_nat (child_index 0 c (Coords q0) 0)) i) as [<-|Hne].
    + rewrite (nth_error_store_at_same _ _ _ _ Enth) in Ei. inversion Ei; subst ch.
      apply (Permutation_in _ Hp) in Hq1. destruct Hq1 as [<-|Hq1].
      * now rewrite Z2Nat.id.
      * exact (HI cs _ child q1 eq_refl Enth Hq1).
    + rewrite (nth_error_store_at_other _ _ _ _ Hne) in Ei.
      exact (HI cs i ch q1 eq_refl Ei Hq1).
  - intros c b k curP cs Hc Hb HI EM. split.
    + intros cs' i ch q1 E Ei Hq1. cbn [children] in E. inversion E; subst cs'.
      destruct (fresh_children _ _ _ _ _ _ _ _ _ _ _ (eq_trans Hb (eq_sym Hc)) EM Ei)
        as (_ & _ & _ & Hpts).
      rewrite Hpts in Hq1. destruct Hq1.
    + intros i ch Ei cs' j ch' q1 E.
      destruct (fresh_children _ _ _ _ _ _ _ _ _ _ _ (eq_trans Hb (eq_sym Hc)) EM Ei)
        as (_ & Hc0 & _). rewrite Hc0 in E. discriminate.
Qed.

Lemma built_routed (t : NTree) (ps : list Point) : built t ps -> all_nodes routed_node t.
Proof.
  induction 1 as [c b t HN|t ps fuel q tr t' Hb IH HA].
  - apply New_Ok in HN as (-> & _). apply all_nodes_intro.
    + intros cs i ch q1 E. discriminate.
    + intros cs i ch E. discriminate.
  - destruct (built_inv _ _ Hb) as (n & Hwf & _).
    apply (Add_inserted fuel [] n) in HA; [|exact Hwf].
    eapply inserted_routed; eassumption.
Qed.

Lemma store_at_length {A : Type} (l : list A) (i : nat) (a : A) :
  List.length (store_at l i a) = List.length l.
Proof. revert i. induction l as [|x l IH]; intros [|i]; simpl; auto. Qed.

Lemma inserted_shaped (n : nat) (pi : path) (t : NTree) (q : Point) (tr : trace) (t' : NTree) :
  inserted n pi t q tr t' -> all_nodes shaped_node t -> all_nodes shaped_node t'.
Proof.
  apply inserted_all_nodes.
  - intros pi0 c b k q0 _ cs E. discriminate.
  - intros pi0 c b cs k q0 child tra ta HI Htarget Enth Hins Hin cs' E.
    cbn [children center bounds] in *. inversion E; subst cs'.
    destruct (HI cs eq_refl) as [Hlen Hbox]. unfold N in *. cbn [center] in *.
    apply inserted_ok in Hins as (_ & _ & _ & _ & Hca & Hba & _).
    split; [now rewrite store_at_length|].
    intros i ch Ei.
    destruct (Nat.eq_dec (Z.to_nat (child_index 0 c (Coords q0) 0)) i) as [<-|Hne].
    + rewrite (nth_error_store_at_same _ _ _ _ Enth) in Ei. inversion Ei; subst ch.
      rewrite Hca, Hba. exact (Hbox _ child Enth).
    + rewrite (nth_error_store_at_other _ _ _ _ Hne) in Ei. exact (Hbox i ch Ei).
  - intros c b k curP cs Hc Hb HI EM. split.
    + intros cs' E. cbn [children] in E. inversion E; subst cs'.
      unfold N. cbn [center bounds].
      assert (HM := EM).
      apply (make_children_Done n) in HM as (_ & _ & _ & Hlen); [|exact Hc|exact Hb].
      split.
      * rewrite Hlen, Z2Nat.id; [reflexivity|].
        unfold ModPowUint64. apply Z.mod_pos_bound. reflexivity.
      * intros i ch Ei. assert (HM := EM).
        eapply make_children_nth in HM as (HB & _);
          [|cbn [center bounds]; congruence|exact Ei].
        exact HB.
    + intros i ch Ei cs' E.
      destruct (fresh_children _ _ _ _ _ _ _ _ _ _ _ (eq_trans Hb (eq_sym Hc)) EM Ei)
        as (_ & Hc0 & _). rewrite Hc0 in E. discriminate.
Qed.

Lemma built_shaped (t : NTree) (ps : list Point) : built t ps -> all_nodes shaped_node t.
Proof.
  induction 1 as [c b t HN|t ps fuel q tr t' Hb IH HA].
  - apply New_Ok in HN as (-> & _). apply all_nodes_intro.
    + intros cs E. discriminate.
    + intros cs i ch E. discriminate.
  - destruct (built_inv _ _ Hb) as (n & Hwf & _).
    apply (Add_inserted fuel [] n) in HA; [|exact Hwf].
    eapply inserted_shaped; eassumption.
Qed.

(** ** Helper facts for the further properties *)

Lemma inside_in_box (c b xs lo hi : list float) :
  corners c b = Done [] (lo, hi) ->
  Forall (fun x => is_nan x = false) xs ->
  Forall (fun x => is_nan x = false) lo ->
  Forall (fun x => is_nan x = false) hi ->
  inside c b xs = in_box xs lo hi.
Proof.
  revert b xs lo hi. induction c as [|ci c IH]; intros [|bi b] [|x xs] lo hi; simpl;
    try discriminate; try (intros H; inversion H; subst; reflexivity);
    try (destruct (corners c b) as [tr [l h]| | |]; simpl; try discriminate;
         intros H; inversion H; subst; reflexivity).
  destruct (corners c b) as [tr [l h]| | |] eqn:E; simpl; try discriminate.
  intros H Hx Hlo Hhi. injection H as Htr <- <-.
  apply app_eq_nil in Htr as [-> _].
  inversion Hx as [|? ? Hnx Hxs]; inversion Hlo as [|? ? Hnl Hls];
    inversion Hhi as [|? ? Hnh Hhs]; subst. simpl.
  rewrite (IH b xs l h E Hxs Hls Hhs). f_equal.
  destruct (x <? ci - bi)%float eqn:E1; simpl.
  - now rewrite (ltb_leb_false _ _ E1).
  - rewrite (nltb_leb _ _ Hnx Hnl E1). simpl.
    destruct (ci + bi <? x)%float eqn:E2; simpl.
    + now rewrite (ltb_leb_false _ _ E2).
    + now rewrite (nltb_leb _ _ Hnh Hnx E2).
Qed.

Lemma node_at_points_incl (pi : path) :
  forall (t m : NTree), node_at t pi = Some m -> incl (points m) (points t).
Proof.
  induction pi as [|i pi IH]; intros t m E; cbn [node_at] in E.
  - inversion E; subst. apply incl_refl.
  - destruct (children t) as [cs|] eqn:Ec; [|discriminate].
    destruct (nth_error cs i) as [[ch|]|] eqn:Ei; try discriminate.
    apply IH in E. rewrite (points_unfold t), Ec.
    destruct (nth_error_split _ _ Ei) as (l1 & l2 & -> & _).
    rewrite flat_map_app. simpl.
    intros q Hq. apply in_or_app. right. apply in_or_app. right.
    apply in_or_app. left. now apply E.
Qed.

Lemma built_node (t : NTree) (ps : list Point) (pi : path) (m : NTree) :
  built t ps -> node_at t pi = Some m ->
  wf (N t) m /\ (1 <= N t <= MaxN)%nat /\
  Forall (fun q => List.length (Coords q) = N t) (points m).
Proof.
  intros Hb E. destruct (built_inv _ _ Hb) as (n & Hwf & Hn & Hp & _ & Hall).
  unfold N. rewrite (wf_center _ _ Hwf).
  split; [exact (wf_node_at n pi t m Hwf E)|]. split; [exact Hn|].
  rewrite Forall_forall in *. intros q Hq.
  apply (node_at_points_incl _ _ _ E) in Hq.
  apply (Permutation_in _ Hp) in Hq. now apply Hall.
Qed.

Lemma matches_self (xs : list float) : matches xs xs xs = true.
Proof.
  induction xs as [|x xs IH]; simpl; [reflexivity|].
  now rewrite ltb_irrefl, IH.
Qed.

(** * Further properties of the code *)

(** X1.  [Contains] is the inclusive box test: on a node of a built tree,
    for a point of the tree's dimension, with no NaN among the point's
    coordinates and the node's corners as [BoundPoints()] gives them,
    [Contains] returns true exactly when every coordinate lies between the
    lower and the upper corner, the corners included. *)
Theorem Contains_is_the_inclusive_box_test
  (t : NTree) (ps : list Point) (pi : path) (m : NTree) (q : Point)
  (tr : trace) (lo hi : list float) :
  built t ps -> node_at t pi = Some m ->
  List.length (Coords q) = N t ->
  BoundPoints pi m = Done tr (lo, hi) ->
  no_nan q ->
  Forall (fun x => is_nan x = false) lo -> Forall (fun x => is_nan x = false) hi ->
  Contains pi m (Some q) =
    Done [EvRLock pi; EvRUnlock pi] (Ok (in_box (Coords q) lo hi)).
Proof.
  intros Hb E Hq HB Hnq Hlo Hhi.
  destruct (built_node _ _ _ _ Hb E) as (Hwf & _ & _).
  rewrite Contains_free
    by (try apply (wf_mutex _ _ Hwf); unfold N;
        rewrite (wf_bounds _ _ Hwf), (wf_center _ _ Hwf); reflexivity).
  unfold N at 1. rewrite (wf_center _ _ Hwf), Hq, Nat.eqb_refl. cbn [negb].
  unfold BoundPoints, RLock in HB. rewrite (wf_mutex _ _ Hwf) in HB.
  cbn [emit bind] in HB.
  destruct (corners (center m) (bounds m)) as [tr0 [lo0 hi0]| | |] eqn:EC;
    try discriminate.
  destruct (corners_lengths (center m) (bounds m)) as (lo1 & hi1 & EC1 & _).
  { rewrite (wf_bounds _ _ Hwf), (wf_center _ _ Hwf). reflexivity. }
  rewrite EC1 in EC. injection EC as <- <- <-.
  cbn in HB. injection HB as _ <- <-.
  now rewrite (inside_in_box _ _ _ _ _ EC1 Hnq Hlo Hhi).
Qed.

Lemma Contains_is_the_inclusive_box_test_witness :
  Contains [] quad2 (Some (mkPoint [1%float; (-1)%float] None)) =
    Done [EvRLock []; EvRUnlock []]
      (Ok (in_box [1%float; (-1)%float] [(-1)%float; (-1)%float] [1%float; 1%float])).
Proof.
  apply (Contains_is_the_inclusive_box_test quad2 [pB; pA] [] quad2
           (mkPoint [1%float; (-1)%float] None) [EvRLock []; EvRUnlock []]).
  - exact built_quad2.
  - reflexivity.
  - reflexivity.
  - vm_compute. reflexivity.
  - repeat constructor.
  - repeat constructor.
  - repeat constructor.
Defined.

(** X2.  [Add] validates before it touches anything: on a built tree a point
    of the wrong dimension is refused with the dimension message and a point
    that [Contains] rejects with the out-of-bounds message; in both cases
    only the root's read lock was taken and released, and the tree, its count
    included, is exactly as before. *)
Theorem Add_refuses_without_touching_the_tree
  (t : NTree) (ps : list Point) (q : Point) (fuel : nat) :
  built t ps ->
  (List.length (Coords q) <> N t ->
   Add (S fuel) [] t (Some q) =
     Done [EvRLock []; EvRUnlock []]
          (t, Some (dimension_error (List.length (Coords q)) (N t)))) /\
  (List.length (Coords q) = N t ->
   inside (center t) (bounds t) (Coords q) = false ->
   Add (S fuel) [] t (Some q) =
     Done [EvRLock []; EvRUnlock []]
          (t, Some "Point doesn't fall within bounds of NTree.")).
Proof.
  intros Hb. destruct (built_inv _ _ Hb) as (n & Hwf & _).
  assert (EC := Contains_free [] t q (wf_mutex _ _ Hwf)).
  rewrite (wf_bounds _ _ Hwf) in EC. unfold N in EC at 1.
  rewrite (wf_center _ _ Hwf) in EC. specialize (EC eq_refl).
  split.
  - intros Hne. cbn [Add]. rewrite EC.
    replace (List.length (Coords q) =? N t)%nat with false
      by (symmetry; now apply Nat.eqb_neq).
    reflexivity.
  - intros He Hout. cbn [Add]. rewrite EC, He, Nat.eqb_refl, Hout. reflexivity.
Qed.

Lemma Add_refuses_without_touching_the_tree_witness :
  Add 1 [] quad2 (Some (mkPoint [0%float] None)) =
    Done [EvRLock []; EvRUnlock []] (quad2, Some (dimension_error 1 2)) /\
  Add 1 [] quad2 (Some (mkPoint [0%float; 1.5%float] None)) =
    Done [EvRLock []; EvRUnlock []]
         (quad2, Some "Point doesn't fall within bounds of NTree.").
Proof.
  split.
  - apply (proj1 (Add_refuses_without_touching_the_tree quad2 [pB; pA]
                    (mkPoint [0%float] None) O built_quad2)).
    vm_compute. discriminate.
  - apply (proj2 (Add_refuses_without_touching_the_tree quad2 [pB; pA]
                    (mkPoint [0%float; 1.5%float] None) O built_quad2)).
    + reflexivity.
    + vm_compute. reflexivity.
Defined.

(** X3.  [Search] checks the query before it looks at the node: when the two
    bounding points differ in length, or their length is not the node's
    dimension, it returns the dimension error (and no points), having taken
    and released only the node's read lock. *)
Theorem Search_refuses_a_query_of_the_wrong_dimension
  (pi : path) (t : NTree) (lo hi : list float) :
  mutex t = MuFree ->
  List.length lo <> List.length hi \/ List.length hi <> N t ->
  Search pi t lo hi =
    Done [EvRLock pi; EvRUnlock pi]
         (Error "Bounding points have different dimensions than tree.").
Proof.
  intros Hm H. rewrite Search_unfold. unfold RLock. rewrite Hm. cbn [emit bind].
  replace (negb (List.length lo =? List.length hi)%nat
           || negb (List.length hi =? N t)%nat) with true; [reflexivity|].
  symmetry. apply orb_true_iff. destruct H as [H|H]; [left|right];
    apply negb_true_iff, Nat.eqb_neq; exact H.
Qed.

Lemma Search_refuses_a_query_of_the_wrong_dimension_witness :
  Search [] quad2 [0%float] [1%float] =
    Done [EvRLock []; EvRUnlock []]
         (Error "Bounding points have different dimensions than tree.").
Proof.
  apply (Search_refuses_a_query_of_the_wrong_dimension [] quad2).
  - reflexivity.
  - right. vm_compute. discriminate.
Defined.

(** X4.  A successful [Add] adds exactly the point: the points stored in the
    tree afterwards are those stored before plus the new one, the root's
    count went up by one (as a [uint64]), the root's centre and bounds are
    unchanged, and the point has the tree's dimension and was accepted by
    the root's [Contains]. *)
Theorem successful_Add_adds_exactly_the_point
  (t : NTree) (ps : list Point) (fuel : nat) (q : Point) (tr : trace) (t' : NTree) :
  built t ps ->
  Add fuel [] t (Some q) = Done tr (t', None) ->
  Permutation (points t') (q :: points t) /\
  count t' = wrap_uint64 (count t + 1) /\
  center t' = center t /\ bounds t' = bounds t /\
  List.length (Coords q) = N t /\
  Contains [] t (Some q) = Done [EvRLock []; EvRUnlock []] (Ok true).
Proof.
  intros Hb HA. destruct (built_inv _ _ Hb) as (n & Hwf & _).
  destruct (Add_ok fuel [] n t q tr t' Hwf HA) as (_ & Hp & Hk & Hc & Hbd & Hq & Hin).
  unfold N. rewrite (wf_center _ _ Hwf).
  repeat split; try assumption.
  rewrite Contains_free
    by (try apply (wf_mutex _ _ Hwf); unfold N;
        rewrite (wf_bounds _ _ Hwf), (wf_center _ _ Hwf); reflexivity).
  unfold N. rewrite (wf_center _ _ Hwf), Hq, Nat.eqb_refl, Hin. reflexivity.
Qed.

Lemma successful_Add_adds_exactly_the_point_witness :
  Permutation (points quad2) (pB :: points quad1) /\
  count quad2 = wrap_uint64 (count quad1 + 1) /\
  center quad2 = center quad1 /\ bounds quad2 = bounds quad1 /\
  List.length (Coords pB) = N quad1 /\
  Contains [] quad1 (Some pB) = Done [EvRLock []; EvRUnlock []] (Ok true).
Proof.
  apply (successful_Add_adds_exactly_the_point quad1 [pA] 8 pB
           (events (Add 8 [] quad1 (Some pB))) quad2 built_quad1).
  vm_compute. reflexivity.
Defined.

(** X5.  Every node of a built tree is in order: it has the tree's
    dimension in centre and bounds, its mutex is free, it holds a point or
    children but never both, a held point has the tree's dimension, no child
    entry is nil, and [Point()] of a node with children returns nil. *)
Theorem every_node_of_a_built_tree_is_in_order
  (t : NTree) (ps : list Point) (pi : path) (m : NTree) :
  built t ps -> node_at t pi = Some m ->
  N m = N t /\ List.length (bounds m) = N t /\ mutex m = MuFree /\
  (forall q, p m = Some q -> children m = None /\ List.length (Coords q) = N t) /\
  (forall cs, children m = Some cs ->
     PointOf pi m = Done [EvRLock pi; EvRUnlock pi] None /\
     forall i, (i < List.length cs)%nat -> exists c, nth_error cs i = Some (Some c)).
Proof.
  intros Hb E. destruct (built_node _ _ _ _ Hb E) as (Hwf & _ & _).
  inversion Hwf as [c b op k Hc Hbd Hop|c b cs k Hc Hbd Hcs]; subst m;
    unfold N at 1; cbn [center bounds mutex p children];
    repeat split; try assumption; try reflexivity; try discriminate.
  - match goal with H : _ = Some ?q |- _ => exact (Hop _ H) end.
  - intros i Hi.
    match goal with H : Some _ = Some _ |- _ => inversion H; subst end.
    match goal with
    | |- exists c0, nth_error ?l i = _ => destruct (nth_error l i) as [o|] eqn:Ei
    end.
    + destruct (wf_children_nth _ _ _ _ Hcs Ei) as (ch & -> & _). eauto.
    + apply nth_error_None in Ei. lia.
Qed.

Lemma every_node_of_a_built_tree_is_in_order_witness :
  N quad2 = N quad2 /\ List.length (bounds quad2) = N quad2 /\ mutex quad2 = MuFree /\
  (forall q, p quad2 = Some q -> children quad2 = None /\ List.length (Coords q) = N quad2) /\
  (forall cs, children quad2 = Some cs ->
     PointOf [] quad2 = Done [EvRLock []; EvRUnlock []] None /\
     forall i, (i < List.length cs)%nat -> exists c, nth_error cs i = Some (Some c)).
Proof.
  apply (every_node_of_a_built_tree_is_in_order quad2 [pB; pA] [] quad2 built_quad2).
  reflexivity.
Defined.

Lemma Count_at_node (t : NTree) (ps : list Point) (pi : path) (m : NTree) :
  built t ps -> Z.of_nat (List.length ps) < 2 ^ 64 ->
  node_at t pi = Some m ->
  Count pi m = Done [EvRLock pi; EvRUnlock pi] (Z.of_nat (List.length (points m))).
Proof.
  intros Hb HM E. destruct (built_node _ _ _ _ Hb E) as (Hwf & _ & _).
  unfold Count, RLock. rewrite (wf_mutex _ _ Hwf). cbn [emit bind after ret app].
  rewrite (built_exact _ _ Hb pi m E).
  destruct (built_inv _ _ Hb) as (n & _ & _ & Hp & _).
  pose proof (node_at_points_le _ _ _ E) as Hle.
  rewrite (Permutation_length Hp) in Hle.
  unfold wrap_uint64. rewrite Z.mod_small; [reflexivity|lia].
Qed.

(** X6.  At every node of a tree built by fewer than [2^64] insertions,
    [Count()] returns the number of points stored at or below that node. *)
Theorem Count_is_the_number_of_points_below
  (t : NTree) (ps : list Point) (pi : path) (m : NTree) :
  built t ps -> Z.of_nat (List.length ps) < 2 ^ 64 ->
  node_at t pi = Some m ->
  Count pi m = Done [EvRLock pi; EvRUnlock pi] (Z.of_nat (List.length (points m))).
Proof. exact (Count_at_node t ps pi m). Qed.

Lemma built_quad3 : built quad3 [pC; pB; pA].
Proof.
  eapply (built_Add quad2 [pB; pA] 8 pC); [exact built_quad2|].
  vm_compute. reflexivity.
Qed.

Lemma Count_is_the_number_of_points_below_witness :
  Count [3%nat] quad3_child3 = Done [EvRLock [3%nat]; EvRUnlock [3%nat]] 2.
Proof.
  apply (Count_is_the_number_of_points_below quad3 [pC; pB; pA] [3%nat] quad3_child3
           built_quad3).
  - reflexivity.
  - vm_compute. reflexivity.
Defined.

(** X7.  Every stored point lies in the box of every node above it: at each
    node of a built tree, [Contains] accepts every point stored at or below
    that node (the struct's comment asks that the box contain the node's
    point). *)
Theorem stored_points_are_inside_the_nodes_above
  (t : NTree) (ps : list Point) (pi : path) (m : NTree) (q : Point) :
  built t ps -> node_at t pi = Some m -> In q (points m) ->
  Contains pi m (Some q) = Done [EvRLock pi; EvRUnlock pi] (Ok true).
Proof.
  intros Hb E Hq. destruct (built_node _ _ _ _ Hb E) as (Hwf & _ & Hdim).
  rewrite Contains_free
    by (try apply (wf_mutex _ _ Hwf); unfold N;
        rewrite (wf_bounds _ _ Hwf), (wf_center _ _ Hwf); reflexivity).
  rewrite Forall_forall in Hdim. unfold N at 1.
  rewrite (wf_center _ _ Hwf), (Hdim q Hq), Nat.eqb_refl. cbn [negb].
  pose proof (built_boxed _ _ Hb pi m E) as HB. unfold boxed_node in HB.
  rewrite Forall_forall in HB. now rewrite (HB q Hq).
Qed.

Lemma stored_points_are_inside_the_nodes_above_witness :
  Contains [3%nat] quad3_child3 (Some pC) =
    Done [EvRLock [3%nat]; EvRUnlock [3%nat]] (Ok true).
Proof.
  apply (stored_points_are_inside_the_nodes_above quad3 [pC; pB; pA] [3%nat]
           quad3_child3 pC built_quad3).
  - vm_compute. reflexivity.
  - vm_compute. auto.
Defined.

(** X8.  At every node of a built tree, the root or any node below it, a
    [Search] called on the node over its own [BoundPoints()] returns exactly
    the points stored at or below it, so (below [2^64] insertions) as many
    as its [Count()] says. *)
Theorem Search_over_the_own_box_returns_the_points_below
  (t : NTree) (ps : list Point) (pi : path) (m : NTree) :
  built t ps -> Z.of_nat (List.length ps) < 2 ^ 64 ->
  node_at t pi = Some m ->
  exists lo hi tr,
    BoundPoints pi m = Done [EvRLock pi; EvRUnlock pi] (lo, hi) /\
    Search pi m lo hi = Done tr (Ok (points m)) /\
    Count pi m = Done [EvRLock pi; EvRUnlock pi] (Z.of_nat (List.length (points m))).
Proof.
  intros Hb HM E. destruct (built_node _ _ _ _ Hb E) as (Hwf & _ & _).
  destruct (corners_lengths (center m) (bounds m)) as (lo & hi & EC & Hlo & Hhi).
  { rewrite (wf_bounds _ _ Hwf), (wf_center _ _ Hwf). reflexivity. }
  rewrite (wf_center _ _ Hwf) in Hlo, Hhi.
  destruct (Search_wf _ m Hwf pi lo hi Hlo Hhi) as (tr & ES & _).
  exists lo, hi, tr. split; [|split].
  - unfold BoundPoints, RLock. rewrite (wf_mutex _ _ Hwf), EC. reflexivity.
  - rewrite ES. do 2 f_equal. apply filter_all.
    pose proof (built_boxed _ _ Hb pi m E) as HB. unfold boxed_node in HB.
    rewrite Forall_forall in *. intros q Hq.
    eapply inside_matches_corners; [exact EC|]. now apply HB.
  - exact (Count_at_node t ps pi m Hb HM E).
Qed.

Lemma Search_over_the_own_box_returns_the_points_below_witness :
  exists lo hi tr,
    BoundPoints [3%nat] quad3_child3 = Done [EvRLock [3%nat]; EvRUnlock [3%nat]] (lo, hi) /\
    Search [3%nat] quad3_child3 lo hi = Done tr (Ok (points quad3_child3)) /\
    Count [3%nat] quad3_child3 =
      Done [EvRLock [3%nat]; EvRUnlock [3%nat]]
           (Z.of_nat (List.length (points quad3_child3))).
Proof.
  apply (Search_over_the_own_box_returns_the_points_below quad3 [pC; pB; pA] [3%nat]
           quad3_child3 built_quad3).
  - reflexivity.
  - vm_compute. reflexivity.
Defined.

(** X9.  Insert, then look up: every point inserted into a built tree is
    among the points that a [Search] over the degenerate box at the point's
    own coordinates returns, whatever the coordinates are. *)
Theorem inserted_point_is_found_at_its_coordinates
  (t : NTree) (ps : list Point) (q : Point) :
  built t ps -> In q ps ->
  exists tr found,
    Search [] t (Coords q) (Coords q) = Done tr (Ok found) /\ In q found.
Proof.
  intros Hb Hq. destruct (built_inv _ _ Hb) as (n & Hwf & _ & Hp & _ & Hall).
  rewrite Forall_forall in Hall. destruct (Hall q Hq) as [Hlen _].
  destruct (Search_wf n t Hwf [] (Coords q) (Coords q) Hlen Hlen) as (tr & E & _).
  eexists. eexists. split; [exact E|].
  apply filter_In. split; [|apply matches_self].
  apply (Permutation_in _ (Permutation_sym Hp)). exact Hq.
Qed.

Lemma inserted_point_is_found_at_its_coordinates_witness :
  exists tr found,
    Search [] quad3 (Coords pB) (Coords pB) = Done tr (Ok found) /\ In pB found.
Proof.
  apply (inserted_point_is_found_at_its_coordinates quad3 [pC; pB; pA] pB built_quad3).
  simpl. auto.
Defined.

(** X10.  On a built tree and for any query of the tree's dimension,
    ordered or not, NaN or not, [Search] returns without error, and what it
    returns is exactly the inserted points that have no coordinate below the
    lower bound and none above the upper bound, each as often as inserted,
    in the order of a depth-first walk by child index. *)
Theorem Search_returns_the_points_that_pass_the_leaf_test
  (t : NTree) (ps : list Point) (lo hi : list float) :
  built t ps ->
  List.length lo = N t -> List.length hi = N t ->
  exists tr,
    Search [] t lo hi =
      Done tr (Ok (filter (fun q => matches (Coords q) lo hi) (points t))) /\
    Permutation (filter (fun q => matches (Coords q) lo hi) (points t))
                (filter (fun q => matches (Coords q) lo hi) ps).
Proof.
  intros Hb Hlo Hhi.
  destruct (built_inv _ _ Hb) as (n & Hwf & _ & Hp & _ & _).
  unfold N in *. rewrite (wf_center _ _ Hwf) in *.
  destruct (Search_wf n t Hwf [] lo hi Hlo Hhi) as (tr & E & _).
  exists tr. split; [exact E|]. now apply filter_Permutation.
Qed.

Lemma Search_returns_the_points_that_pass_the_leaf_test_witness :
  exists tr,
    Search [] quad3 [1%float; nan] [0%float; 2%float] =
      Done tr (Ok (filter (fun q => matches (Coords q) [1%float; nan] [0%float; 2%float])
                     (points quad3))) /\
    Permutation
      (filter (fun q => matches (Coords q) [1%float; nan] [0%float; 2%float]) (points quad3))
      (filter (fun q => matches (Coords q) [1%float; nan] [0%float; 2%float]) [pC; pB; pA]).
Proof.
  apply (Search_returns_the_points_that_pass_the_leaf_test quad3 [pC; pB; pA]).
  - exact built_quad3.
  - reflexivity.
  - reflexivity.
Defined.

Lemma Search_each_child_trace (pi : path) (p1 p2 : list float) (cs : list (option NTree)) :
  forall (i0 : nat) (acc : list Point) (tr : trace) (r : list Point),
    Search_each pi p1 p2 cs i0 acc = Done tr (Ok r) ->
    forall d c, nth_error cs d = Some (Some c) ->
      exists trc rc,
        Search (pi ++ [(i0 + d)%nat]) c p1 p2 = Done trc (Ok rc) /\ incl trc tr.
Proof.
  induction cs as [|[ch|] cs IH]; intros i0 acc tr r E d c Hd; simpl in E;
    try discriminate; [destruct d; discriminate|].
  apply bind_Done in E as (tr0 & [] & tr1 & _ & E & ->).
  apply bind_Done in E as (tr2 & [found|e] & tr3 & ES & E & ->); [|discriminate].
  destruct d as [|d]; simpl in Hd.
  - inversion Hd; subst c. rewrite Nat.add_0_r. exists tr2, found.
    split; [exact ES|]. intros ev Hev. apply in_or_app. right.
    apply in_or_app. now left.
  - destruct (IH (S i0) _ _ _ E d c Hd) as (trc & rc & Ec & Hincl).
    replace (i0 + S d)%nat with (S i0 + d)%nat by lia.
    exists trc, rc. split; [exact Ec|]. intros ev Hev. apply in_or_app. right.
    apply in_or_app. right. now apply Hincl.
Qed.

Lemma Search_visits (rel : path) :
  forall (pi : path) (t m : NTree) (p1 p2 : list float) (tr : trace) (found : list Point),
    Search pi t p1 p2 = Done tr (Ok found) ->
    node_at t rel = Some m ->
    In (EvRLock (pi ++ rel)) tr.
Proof.
  induction rel as [|i rel IH]; intros pi t m p1 p2 tr found E Hm.
  - rewrite app_nil_r. apply Search_first_event in E as (tr' & ->). now left.
  - cbn [node_at] in Hm.
    destruct (children t) as [cs|] eqn:Ec; [|discriminate].
    destruct (nth_error cs i) as [[ch|]|] eqn:Ei; try discriminate.
    rewrite Search_unfold, Ec in E.
    apply bind_Done in E as (tr0 & [] & tr1 & _ & E & ->).
    destruct (_ || _); [inversion E|].
    apply bind_Done in E as (tr2 & [r|e] & tr3 & ES & E & ->); [|inversion E].
    destruct (Search_each_child_trace pi p1 p2 cs O [] tr2 r ES i ch Ei)
      as (trc & rc & Ec' & Hincl).
    apply in_or_app. right. apply in_or_app. left. apply Hincl.
    replace (pi ++ i :: rel) with ((pi ++ [i]) ++ rel)
      by (now rewrite <- app_assoc).
    exact (IH (pi ++ [i]) ch m p1 p2 trc rc Ec' Hm).
Qed.

(** X11.  [Search] is a full scan: whatever the query, a [Search] that
    returns a result has entered every node of the tree it was called on
    (it took the read lock of each). *)
Theorem Search_enters_every_node
  (t : NTree) (lo hi : list float) (tr : trace) (found : list Point)
  (pi : path) (m : NTree) :
  Search [] t lo hi = Done tr (Ok found) ->
  node_at t pi = Some m ->
  In (EvRLock pi) tr.
Proof. intros E Hm. exact (Search_visits pi [] t m lo hi tr found E Hm). Qed.

Lemma Search_enters_every_node_witness :
  In (EvRLock [3%nat; 1%nat])
     (events (Search [] quad3 [(-1)%float; (-1)%float] [(-0.5)%float; (-0.5)%float])).
Proof.
  apply (Search_enters_every_node quad3 [(-1)%float; (-1)%float]
           [(-0.5)%float; (-0.5)%float] _ [pA] [3%nat; 1%nat]
           (match node_at quad3 [3%nat; 1%nat] with Some m => m | None => quad3 end)).
  - vm_compute. reflexivity.
  - vm_compute. reflexivity.
Defined.

Lemma matches_mono (xs lo1 hi1 lo2 hi2 : list float) :
  ordered lo2 lo1 -> ordered hi1 hi2 ->
  matches xs lo1 hi1 = true -> matches xs lo2 hi2 = true.
Proof.
  intros Hlo. revert xs hi1 hi2.
  induction Hlo as [|l2 l1 lo2 lo1 Hl Hlo IH]; intros xs hi1 hi2 Hhi;
    destruct xs as [|x xs]; simpl; try reflexivity.
  destruct Hhi as [|h1 h2 hi1 hi2 Hh Hhi]; simpl; [reflexivity|].
  intros H. apply andb_prop in H as [H1 H2].
  apply negb_true_iff, orb_false_elim in H1 as [Ha Hb].
  rewrite (IH xs hi1 hi2 Hhi H2), andb_true_r.
  apply negb_true_iff, orb_false_iff. split.
  - destruct (x <? l2)%float eqn:E; [|reflexivity].
    rewrite (ltb_leb_trans _ _ _ E Hl) in Ha. discriminate.
  - destruct (h2 <? x)%float eqn:E; [|reflexivity].
    rewrite (leb_ltb_trans _ _ _ Hh E) in Hb. discriminate.
Qed.

Lemma filter_filter_implied {A : Type} (f g : A -> bool) (l : list A) :
  (forall x, f x = true -> g x = true) ->
  filter f (filter g l) = filter f l.
Proof.
  intros H. induction l as [|x l IH]; simpl; [reflexivity|].
  destruct (g x) eqn:Eg; simpl.
  - now rewrite IH.
  - destruct (f x) eqn:Ef; [|exact IH]. apply H in Ef. congruence.
Qed.

(** X12.  Queries narrow results: on a built tree, when one query box lies
    within another (lower bounds not lower, upper bounds not higher), the
    result of the [Search] over the inner box is the result over the outer
    box with the points failing the inner test left out; in particular every
    point found in the inner box is found in the outer one. *)
Theorem Search_of_an_inner_box_filters_the_outer_result
  (t : NTree) (ps : list Point) (lo1 hi1 lo2 hi2 : list float) :
  built t ps ->
  List.length lo1 = N t -> List.length hi1 = N t ->
  ordered lo2 lo1 -> ordered hi1 hi2 ->
  exists tr1 tr2 found1 found2,
    Search [] t lo1 hi1 = Done tr1 (Ok found1) /\
    Search [] t lo2 hi2 = Done tr2 (Ok found2) /\
    found1 = filter (fun q => matches (Coords q) lo1 hi1) found2 /\
    incl found1 found2.
Proof.
  intros Hb Hlo1 Hhi1 Hlo Hhi.
  destruct (built_inv _ _ Hb) as (n & Hwf & _).
  unfold N in *. rewrite (wf_center _ _ Hwf) in *.
  assert (Hlo2 : List.length lo2 = n)
    by (rewrite <- Hlo1; exact (Forall2_length Hlo)).
  assert (Hhi2 : List.length hi2 = n)
    by (rewrite <- Hhi1; symmetry; exact (Forall2_length Hhi)).
  destruct (Search_wf n t Hwf [] lo1 hi1 Hlo1 Hhi1) as (tr1 & E1 & _).
  destruct (Search_wf n t Hwf [] lo2 hi2 Hlo2 Hhi2) as (tr2 & E2 & _).
  eexists _, _, _, _. split; [exact E1|]. split; [exact E2|].
  assert (Heq : filter (fun q => matches (Coords q) lo1 hi1) (points t) =
                filter (fun q => matches (Coords q) lo1 hi1)
                  (filter (fun q => matches (Coords q) lo2 hi2) (points t))).
  { symmetry. apply filter_filter_implied. intros q. now apply matches_mono. }
  split; [exact Heq|].
  rewrite Heq. intros q Hq. apply filter_In in Hq. tauto.
Qed.

Lemma Search_of_an_inner_box_filters_the_outer_result_witness :
  exists tr1 tr2 found1 found2,
    Search [] quad3 [0%float; 0%float] [0.5%float; 0.5%float] = Done tr1 (Ok found1) /\
    Search [] quad3 [(-1)%float; 0%float] [1%float; 0.75%float] = Done tr2 (Ok found2) /\
    found1 = filter (fun q => matches (Coords q) [0%float; 0%float] [0.5%float; 0.5%float])
               found2 /\
    incl found1 found2.
Proof.
  apply (Search_of_an_inner_box_filters_the_outer_result quad3 [pC; pB; pA]).
  - exact built_quad3.
  - reflexivity.
  - reflexivity.
  - repeat constructor.
  - repeat constructor.
Defined.

Lemma setBit_range (n : Z) (j : nat) :
  (j <= 62)%nat -> 0 <= n < 2 ^ 63 -> 0 <= setBit n j < 2 ^ 63.
Proof.
  intros Hj Hn. unfold setBit. rewrite (shifted_one j Hj).
  assert (Hp : 0 < 2 ^ Z.of_nat j) by (apply Z.pow_pos_nonneg; lia).
  assert (H0 : 0 <= Z.lor n (2 ^ Z.of_nat j)) by (apply Z.lor_nonneg; lia).
  split; [exact H0|].
  destruct (Z.eq_dec (Z.lor n (2 ^ Z.of_nat j)) 0) as [->|Hl]; [reflexivity|].
  apply Z.log2_lt_pow2; [lia|].
  rewrite Z.log2_lor by lia. rewrite Z.log2_pow2 by lia.
  destruct (Z.eq_dec n 0) as [->|Hne].
  - change (Z.log2 0) with 0. lia.
  - assert (Z.log2 n < 63) by (apply Z.log2_lt_pow2; lia). lia.
Qed.

Lemma hasBit_high (n : Z) (pos : nat) :
  (63 <= pos)%nat -> 0 <= n < 2 ^ 63 -> hasBit n pos = false.
Proof.
  intros Hpos Hn. unfold hasBit.
  destruct (Nat.eq_dec pos 63) as [->|Hne].
  - change (wrap_int (Z.shiftl 1 (Z.of_nat 63))) with (Z.shiftl (-1) 63).
    replace (Z.land n (Z.shiftl (-1) 63)) with 0; [reflexivity|].
    symmetry. apply Z.bits_inj'. intros k Hk.
    rewrite Z.land_spec, Z.bits_0.
    destruct (Z.ltb_spec k 63) as [Hlt|Hge].
    + rewrite Z.shiftl_spec_low by lia. apply andb_false_r.
    + destruct (Z.eq_dec n 0) as [->|Hn0]; [now rewrite Z.bits_0|].
      rewrite Z.bits_above_log2; [reflexivity|lia|].
      assert (Z.log2 n < 63) by (apply Z.log2_lt_pow2; lia). lia.
  - replace (wrap_int (Z.shiftl 1 (Z.of_nat pos))) with 0;
      [now rewrite Z.land_0_r|].
    rewrite Z.shiftl_1_l. unfold wrap_int.
    replace (Z.of_nat pos) with (64 + (Z.of_nat pos - 64)) by lia.
    rewrite Z.pow_add_r by lia.
    rewrite Z.add_comm, Z.mul_comm, Z.mod_add by (cbv; discriminate).
    reflexivity.
Qed.

(** X13.  The two bit helpers agree on the positions the tree uses (0 to
    62): after [setBit] at one position [hasBit] reports that position and
    reports every other position as before, and the value stays a
    non-negative [int]; from position 63 on [hasBit] reports no bit. *)
Theorem setBit_and_hasBit_agree_below_63 (n : Z) (j : nat) :
  (j <= 62)%nat -> 0 <= n < 2 ^ 63 ->
  (forall k, (k <= 62)%nat -> hasBit (setBit n j) k = hasBit n k || (j =? k)%nat) /\
  0 <= setBit n j < 2 ^ 63 /\
  (forall pos, (63 <= pos)%nat -> hasBit (setBit n j) pos = false).
Proof.
  intros Hj Hn. split; [|split].
  - intros k Hk. rewrite !hasBit_testbit by exact Hk.
    rewrite (setBit_testbit n j (Z.of_nat k) Hj) by lia.
    f_equal. destruct (Nat.eqb_spec j k) as [->|Hne].
    + apply Z.eqb_refl.
    + apply Z.eqb_neq. lia.
  - now apply setBit_range.
  - intros pos Hpos. apply hasBit_high; [exact Hpos|now apply setBit_range].
Qed.

Lemma setBit_and_hasBit_agree_below_63_witness :
  (forall k, (k <= 62)%nat -> hasBit (setBit 5 1) k = hasBit 5 k || (1 =? k)%nat) /\
  0 <= setBit 5 1 < 2 ^ 63 /\
  (forall pos, (63 <= pos)%nat -> hasBit (setBit 5 1) pos = false).
Proof. apply (setBit_and_hasBit_agree_below_63 5 1); lia. Defined.

Lemma shaped_geometry (n : nat) (m : NTree) (cs : list (option NTree)) :
  wf n m -> (n <= 62)%nat -> shaped_node m -> children m = Some cs ->
  Z.of_nat (List.length cs) = 2 ^ Z.of_nat n /\
  forall i, (i < List.length cs)%nat ->
    exists c, nth_error cs i = Some (Some c) /\
      forall j cj bj,
        nth_error (center m) j = Some cj -> nth_error (bounds m) j = Some bj ->
        nth_error (bounds c) j = Some (bj / 2)%float /\
        nth_error (center c) j =
          Some (if Z.testbit (Z.of_nat i) (Z.of_nat j)
                then (cj + bj / 2)%float else (cj - bj / 2)%float).
Proof.
  intros Hwf Hn Hs Ec. destruct (Hs cs Ec) as [Hlen Hbox].
  assert (HN : N m = n) by (unfold N; exact (wf_center _ _ Hwf)).
  rewrite HN, (ModPowUint64_two n Hn) in Hlen. split; [exact Hlen|].
  intros i Hi.
  destruct (nth_error cs i) as [o|] eqn:Ei;
    [|apply nth_error_None in Ei; lia].
  assert (Hcs : wf_children n cs).
  { inversion Hwf; subst; simpl in Ec; [discriminate|].
    inversion Ec; subst. assumption. }
  destruct (wf_children_nth n cs i o Hcs Ei) as (c & -> & _).
  exists c. split; [reflexivity|].
  intros j cj bj Hcj Hbj.
  destruct (child_box_nth _ _ 0 _ _ _ (Hbox i c Ei) j cj bj Hcj Hbj) as [H1 H2].
  split; [exact H1|]. rewrite H2. cbn [Nat.add].
  rewrite hasBit_testbit; [reflexivity|].
  assert (j < List.length (center m))%nat
    by (apply nth_error_Some; congruence).
  rewrite (wf_center _ _ Hwf) in *. lia.
Qed.

(** X14.  In a tree of at most 62 dimensions built through [New] and
    successful calls of [Add], every node that has children has exactly
    [2^N] of them, none nil, and child [i] has in every dimension [j] half
    the bounds of its parent and its centre moved by that half: up when bit
    [j] of [i] is set, down otherwise. *)
Theorem children_of_a_built_tree_halve_the_box
  (t : NTree) (ps : list Point) (pi : path) (m : NTree) (cs : list (option NTree)) :
  built t ps -> (N t <= 62)%nat ->
  node_at t pi = Some m -> children m = Some cs ->
  Z.of_nat (List.length cs) = 2 ^ Z.of_nat (N t) /\
  forall i, (i < List.length cs)%nat ->
    exists c, nth_error cs i = Some (Some c) /\
      forall j cj bj,
        nth_error (center m) j = Some cj -> nth_error (bounds m) j = Some bj ->
        nth_error (bounds c) j = Some (bj / 2)%float /\
        nth_error (center c) j =
          Some (if Z.testbit (Z.of_nat i) (Z.of_nat j)
                then (cj + bj / 2)%float else (cj - bj / 2)%float).
Proof.
  intros Hb Hn Hm Ec.
  destruct (built_node t ps pi m Hb Hm) as (Hwf & _ & _).
  exact (shaped_geometry (N t) m cs Hwf Hn (built_shaped t ps Hb pi m Hm) Ec).
Qed.

Lemma children_of_a_built_tree_halve_the_box_witness :
  Z.of_nat (List.length (match children quad3_child3 with Some cs => cs | None => [] end))
    = 2 ^ Z.of_nat (N quad3) /\
  forall i,
    (i < List.length (match children quad3_child3 with Some cs => cs | None => [] end))%nat ->
    exists c,
      nth_error (match children quad3_child3 with Some cs => cs | None => [] end) i
        = Some (Some c) /\
      forall j cj bj,
        nth_error (center quad3_child3) j = Some cj ->
        nth_error (bounds quad3_child3) j = Some bj ->
        nth_error (bounds c) j = Some (bj / 2)%float /\
        nth_error (center c) j =
          Some (if Z.testbit (Z.of_nat i) (Z.of_nat j)
                then (cj + bj / 2)%float else (cj - bj / 2)%float).
Proof.
  apply (children_of_a_built_tree_halve_the_box quad3 [pC; pB; pA] [3%nat]).
  - exact built_quad3.
  - change (N quad3) with 2%nat. lia.
  - reflexivity.
  - vm_compute. reflexivity.
Defined.

(** X15.  In a built tree every point stored below child [i] of a node lies,
    in each dimension [j], strictly above the node's centre exactly when bit
    [j] of [i] is set: the points are where the bitmask of [Add] sends
    them. *)
Theorem stored_points_lie_on_the_side_of_their_child_index
  (t : NTree) (ps : list Point) (pi : path) (m : NTree)
  (cs : list (option NTree)) (i : nat) (c : NTree) (q : Point) :
  built t ps ->
  node_at t pi = Some m -> children m = Some cs ->
  nth_error cs i = Some (Some c) -> In q (points c) ->
  forall j, Z.testbit (Z.of_nat i) (Z.of_nat j) = above (center m) (Coords q) j.
Proof.
  intros Hb Hm Ec Ei Hq j.
  destruct (built_node t ps pi m Hb Hm) as (Hwf & Hn & _).
  rewrite <- (built_routed t ps Hb pi m Hm cs i c q Ec Ei Hq).
  rewrite child_index_testbit.
  - rewrite Z.bits_0, Nat.sub_0_r. reflexivity.
  - rewrite (wf_center _ _ Hwf). unfold MaxN in Hn. lia.
Qed.

Lemma stored_points_lie_on_the_side_of_their_child_index_witness :
  Z.testbit (Z.of_nat 3) (Z.of_nat 1) = above (center quad3) (Coords pC) 1.
Proof.
  apply (stored_points_lie_on_the_side_of_their_child_index quad3 [pC; pB; pA] []
           quad3 (match children quad3 with Some cs => cs | None => [] end)
           3 quad3_child3 pC).
  - exact built_quad3.
  - reflexivity.
  - vm_compute. reflexivity.
  - vm_compute. reflexivity.
  - vm_compute. right. left. reflexivity.
Defined.

(** ** The tree right after a split *)

Lemma split_all_nodes (I : NTree -> Prop) (c b : list float) (k : Z) (curP : Point)
  (cs : list (option NTree)) :
  List.length b = List.length c ->
  make_children (mkNTree c b (Some curP) None MuWrite k) 0
    (Z.to_nat (ModPowUint64 2 (Z.of_nat (List.length c)) MaxInt)) = Done [] (cs, None) ->
  I (mkNTree c b None (Some cs) MuFree (wrap_uint64 (k - 1))) ->
  (forall i ch, nth_error cs i = Some (Some ch) -> I ch) ->
  all_nodes I (mkNTree c b None (Some cs) MuFree (wrap_uint64 (k - 1))).
Proof.
  intros Hl EM Hr Hch. apply all_nodes_intro; [exact Hr|].
  intros cs' i ch E Ei. cbn [children] in E. inversion E; subst cs'.
  destruct (fresh_children _ _ _ _ _ _ _ _ _ _ _ Hl EM Ei) as (_ & Hc0 & _).
  apply all_nodes_intro; [exact (Hch i ch Ei)|].
  intros cs'' j ch' E'. rewrite Hc0 in E'. discriminate.
Qed.

Lemma split_routed (c b : list float) (k : Z) (curP : Point) (cs : list (option NTree)) :
  List.length b = List.length c ->
  make_children (mkNTree c b (Some curP) None MuWrite k) 0
    (Z.to_nat (ModPowUint64 2 (Z.of_nat (List.length c)) MaxInt)) = Done [] (cs, None) ->
  all_nodes routed_node (mkNTree c b None (Some cs) MuFree (wrap_uint64 (k - 1))).
Proof.
  intros Hl EM. apply (split_all_nodes _ c b k curP cs Hl EM).
  - intros cs' i ch q1 E Ei Hq1. cbn [children] in E. inversion E; subst cs'.
    destruct (fresh_children _ _ _ _ _ _ _ _ _ _ _ Hl EM Ei) as (_ & _ & _ & Hpts).
    rewrite Hpts in Hq1. destruct Hq1.
  - intros i ch Ei cs' j ch' q1 E.
    destruct (fresh_children _ _ _ _ _ _ _ _ _ _ _ Hl EM Ei) as (_ & Hc0 & _).
    rewrite Hc0 in E. discriminate.
Qed.

Lemma split_shaped (c b : list float) (k : Z) (curP : Point) (cs : list (option NTree)) :
  List.length b = List.length c ->
  make_children (mkNTree c b (Some curP) None MuWrite k) 0
    (Z.to_nat (ModPowUint64 2 (Z.of_nat (List.length c)) MaxInt)) = Done [] (cs, None) ->
  all_nodes shaped_node (mkNTree c b None (Some cs) MuFree (wrap_uint64 (k - 1))).
Proof.
  intros Hl EM. apply (split_all_nodes _ c b k curP cs Hl EM).
  - intros cs' E. cbn [children] in E. inversion E; subst cs'.
    unfold N. cbn [center bounds].
    assert (HM := EM).
    apply (make_children_Done (List.length c)) in HM as (_ & _ & _ & Hlen);
      [|reflexivity|exact Hl].
    split.
    + rewrite Hlen, Z2Nat.id; [reflexivity|].
      unfold ModPowUint64. apply Z.mod_pos_bound. reflexivity.
    + intros i ch Ei. assert (HM := EM).
      eapply make_children_nth in HM as (HB & _); [|exact Hl|exact Ei].
      exact HB.
  - intros i ch Ei cs' E.
    destruct (fresh_children _ _ _ _ _ _ _ _ _ _ _ Hl EM Ei) as (_ & Hc0 & _).
    rewrite Hc0 in E. discriminate.
Qed.

Lemma in_flat_map_points (cs : list (option NTree)) (q : Point) :
  In q (flat_map points_of cs) ->
  exists i ch, nth_error cs i = Some (Some ch) /\ In q (points ch).
Proof.
  induction cs as [|o cs IH]; simpl; [intros []|].
  intros H. apply in_app_or in H as [H|H].
  - destruct o as [ch|]; [|destruct H]. exists O, ch. split; [reflexivity|exact H].
  - destruct (IH H) as (i & ch & Ei & Hq). exists (S i), ch. split; assumption.
Qed.

(** ** Coordinates already stored *)

Lemma inserted_fresh_coordinates (n : nat) (pi : path) (t : NTree) (q : Point)
  (tr : trace) (t' : NTree) :
  inserted n pi t q tr t' -> all_nodes routed_node t ->
  forall q', In q' (points t) -> Coords q' <> Coords q.
Proof.
  induction 1 as
    [pi c b k q Hc Hb Hq Hin
    |pi c b cs k q child tra ta Hc Hb Hcs Hq Hin Htarget Enth Hins IH
    |pi c b k curP q cs tra ta trb t' Hc Hb HcurP Hq Hin EM Hins1 IH1 Hins2 IH2];
    intros Hall q' Hq'.
  - rewrite points_unfold in Hq'. destruct Hq'.
  - rewrite points_unfold in Hq'. cbn [p children opt_list app] in Hq'.
    apply in_flat_map_points in Hq' as (i & ch & Ei & Hin').
    intros Heq.
    assert (Hi := all_nodes_root _ _ Hall cs i ch q' eq_refl Ei Hin').
    cbn [center] in Hi. rewrite Heq in Hi. rewrite Hi, Nat2Z.id in Enth.
    rewrite Ei in Enth. inversion Enth; subst ch.
    apply (IH (all_nodes_child _ _ cs i child Hall eq_refl Ei) q' Hin' Heq).
  - rewrite points_unfold in Hq'. cbn [p children opt_list app] in Hq'.
    destruct Hq' as [<-|[]].
    assert (Hl : List.length b = List.length c) by congruence.
    assert (Hr1 := split_routed c b k curP cs Hl EM).
    apply IH2.
    + exact (inserted_routed _ _ _ _ _ _ Hins1 Hr1).
    + destruct (inserted_ok _ _ _ _ _ _ Hins1) as (_ & _ & Hp & _).
      apply (Permutation_in _ (Permutation_sym Hp)). now left.
Qed.

Lemma built_fresh_coordinates (t : NTree) (ps : list Point) (fuel : nat) (q : Point)
  (tr : trace) (t' : NTree) :
  built t ps -> Add fuel [] t (Some q) = Done tr (t', None) ->
  forall q', In q' ps -> Coords q' <> Coords q.
Proof.
  intros Hb HA q' Hq'.
  destruct (built_inv _ _ Hb) as (n & Hwf & _ & Hp & _).
  apply (Add_inserted fuel [] n) in HA; [|exact Hwf].
  apply (inserted_fresh_coordinates _ _ _ _ _ _ HA (built_routed _ _ Hb)).
  exact (Permutation_in _ (Permutation_sym Hp) Hq').
Qed.

(** X16.  [Add] never returns nil for a point that has the coordinates of a
    point already stored in a built tree: however long the call is left to
    run, it does not end in success. *)
Theorem Add_never_accepts_coordinates_already_stored
  (t : NTree) (ps : list Point) (q q' : Point) :
  built t ps -> In q' ps -> Coords q' = Coords q ->
  forall fuel tr t', Add fuel [] t (Some q) <> Done tr (t', None).
Proof.
  intros Hb Hq' Heq fuel tr t' HA.
  exact (built_fresh_coordinates t ps fuel q tr t' Hb HA q' Hq' Heq).
Qed.

Lemma Add_never_accepts_coordinates_already_stored_witness :
  Add 8 [] quad3 (Some (mkPoint [0.5%float; 0.5%float] None)) <> Done [] (quad3, None).
Proof.
  apply (Add_never_accepts_coordinates_already_stored quad3 [pC; pB; pA] _ pB).
  - exact built_quad3.
  - right. left. reflexivity.
  - reflexivity.
Defined.

(** X17.  The points of a built tree have pairwise different coordinate
    lists. *)
Theorem stored_points_have_distinct_coordinates (t : NTree) (ps : list Point) :
  built t ps -> NoDup (map Coords ps).
Proof.
  induction 1 as [c b t HN|t ps fuel q tr t' Hb IH HA]; simpl.
  - constructor.
  - constructor; [|exact IH]. intros Hin.
    apply in_map_iff in Hin as (q' & Heq & Hq').
    exact (built_fresh_coordinates t ps fuel q tr t' Hb HA q' Hq' Heq).
Qed.

Lemma stored_points_have_distinct_coordinates_witness :
  NoDup (map Coords [pC; pB; pA]).
Proof. exact (stored_points_have_distinct_coordinates quad3 [pC; pB; pA] built_quad3). Defined.

(** ** Trees of 63 dimensions *)

Lemma inserted_63 (n : nat) (pi : path) (t : NTree) (q : Point) (tr : trace) (t' : NTree) :
  inserted n pi t q tr t' -> n = 63%nat -> all_nodes shaped_node t ->
  ~ full t /\ full t'.
Proof.
  induction 1 as
    [pi c b k q Hc Hb Hq Hin
    |pi c b cs k q child tra ta Hc Hb Hcs Hq Hin Htarget Enth Hins IH
    |pi c b k curP q cs tra ta trb t' Hc Hb HcurP Hq Hin EM Hins1 IH1 Hins2 IH2];
    intros Hn Hall.
  - split; [intros Hf; inversion Hf|constructor].
  - destruct (all_nodes_root _ _ Hall cs eq_refl) as [Hlen _].
    unfold N in Hlen. cbn [center] in Hlen. rewrite Hc, Hn in Hlen.
    change (ModPowUint64 2 (Z.of_nat 63) MaxInt) with 1 in Hlen.
    destruct cs as [|o [|o' cs]]; cbn [List.length] in Hlen; try lia.
    destruct (Z.to_nat (child_index 0 c (Coords q) 0)) as [|i] eqn:Ei;
      [|destruct i; discriminate].
    cbn [nth_error] in Enth. inversion Enth; subst o.
    destruct (IH Hn (all_nodes_child _ _ _ O child Hall eq_refl eq_refl)) as [Hnf Hf].
    split.
    + intros Hfull. inversion Hfull; subst. contradiction.
    + cbn [store_at]. now constructor.
  - exfalso.
    assert (Hl : List.length b = List.length c) by congruence.
    assert (Hs1 := split_shaped c b k curP cs Hl EM).
    destruct (IH1 Hn Hs1) as [_ Hf].
    destruct (IH2 Hn (inserted_shaped _ _ _ _ _ _ Hins1 Hs1)) as [Hnf _].
    contradiction.
Qed.

Lemma built_63 (t : NTree) (ps : list Point) :
  built t ps -> N t = 63%nat -> ps = [] \/ (full t /\ exists q, ps = [q]).
Proof.
  induction 1 as [c b t HN|t ps fuel q tr t' Hb IH HA]; intros HN63.
  - now left.
  - destruct (built_inv _ _ Hb) as (n & Hwf & _).
    apply (Add_inserted fuel [] n) in HA; [|exact Hwf].
    destruct (inserted_ok _ _ _ _ _ _ HA) as (_ & _ & _ & _ & Hce & _).
    assert (Hn : n = 63%nat).
    { rewrite <- (wf_center _ _ Hwf), <- Hce. exact HN63. }
    destruct (inserted_63 _ _ _ _ _ _ HA Hn (built_shaped _ _ Hb)) as [Hnf Hf].
    right. split; [exact Hf|].
    destruct IH as [->|[Hfull _]].
    + unfold N. rewrite <- Hce. exact HN63.
    + now exists q.
    + contradiction.
Qed.

(** X18.  A tree of 63 dimensions holds at most one point: the slice size
    computed for a split is [2^63 mod (2^63 - 1) = 1], so every split makes
    a single child, and no call of [Add] on a tree that already holds a
    point returns nil. *)
Theorem a_tree_of_63_dimensions_holds_at_most_one_point
  (t : NTree) (ps : list Point) :
  built t ps -> N t = 63%nat ->
  (List.length ps <= 1)%nat /\
  (ps <> [] -> forall fuel q tr t', Add fuel [] t (Some q) <> Done tr (t', None)).
Proof.
  intros Hb HN. split.
  - destruct (built_63 t ps Hb HN) as [->|[_ [q ->]]]; simpl; lia.
  - intros Hne fuel q tr t' HA.
    assert (Hb' : built t' (q :: ps)) by (eapply built_Add; eassumption).
    assert (HN' : N t' = 63%nat).
    { destruct (built_inv _ _ Hb) as (n & Hwf & _).
      apply (Add_inserted fuel [] n) in HA; [|exact Hwf].
      destruct (inserted_ok _ _ _ _ _ _ HA) as (_ & _ & _ & _ & Hce & _).
      unfold N. rewrite Hce. exact HN. }
    destruct (built_63 t' (q :: ps) Hb' HN') as [E|[_ [q0 E]]]; [discriminate|].
    inversion E; subst. contradiction.
Qed.

Lemma a_tree_of_63_dimensions_holds_at_most_one_point_witness :
  (List.length [p63 (-0.5)%float] <= 1)%nat /\
  ([p63 (-0.5)%float] <> [] ->
   forall fuel q tr t', Add fuel [] wide1 (Some q) <> Done tr (t', None)).
Proof.
  apply (a_tree_of_63_dimensions_holds_at_most_one_point wide1 [p63 (-0.5)%float]).
  - exact built_wide1.
  - reflexivity.
Defined.

(** ** [Iter] *)

Lemma Iter_children_log (pi : path) (cs : list (option NTree)) :
  forall (i : nat) (log : list path),
    Iter_children (observer (fun pi' _ s => s ++ [pi'])) pi cs i log =
    Done [] (cs, log ++ map (fun j => pi ++ [j]) (seq i (List.length cs))).
Proof.
  induction cs as [|[ch|] cs IH]; intros i log; cbn [Iter_children List.length seq map].
  - now rewrite app_nil_r.
  - cbn [observer on_node ret bind after app fst snd]. rewrite IH.
    cbn [bind after ret app fst snd]. now rewrite <- app_assoc.
  - cbn [observer on_nil ret bind after app fst snd]. rewrite IH.
    cbn [bind after ret app fst snd]. now rewrite <- app_assoc.
Qed.

(** X19.  [Iter] calls [f] on the node and on each entry of its children
    slice, in index order, and on nothing else: nodes two or more levels
    below are not visited.  With an [f] that only records where it is called
    the node comes back unchanged and the exclusive lock, held during all the
    calls, is released. *)
Theorem Iter_visits_the_node_and_its_children_only
  (pi : path) (nt : NTree) (log : list path) :
  mutex nt = MuFree ->
  Iter pi nt (observer (fun pi' _ s => s ++ [pi'])) log =
    Done [EvLock pi; EvUnlock pi] (nt, log ++ one_level pi nt) /\
  forall rel, (2 <= List.length rel)%nat -> ~ In (pi ++ rel) (one_level pi nt).
Proof.
  intros Hm. split.
  - destruct nt as [c b op cs m k]. cbn [mutex] in Hm. subst m.
    unfold Iter, Lock, one_level, Unlock.
    cbn [mutex set_mutex observer on_node ret bind after app fst snd children].
    destruct cs as [cs|].
    + rewrite Iter_children_log.
      cbn [bind after ret app fst snd set_children mutex set_mutex].
      unfold set_mutex, set_children. cbn. now rewrite <- app_assoc.
    + cbn [bind after ret app fst snd set_children mutex set_mutex].
      unfold set_mutex. cbn. reflexivity.
  - intros rel Hrel Hin. unfold one_level in Hin. destruct Hin as [E|Hin].
    + assert (H : List.length pi = List.length (pi ++ rel)) by (now rewrite <- E).
      rewrite length_app in H. lia.
    + destruct (children nt) as [cs|]; [|destruct Hin].
      apply in_map_iff in Hin as (j & E & _).
      apply app_inv_head in E. subst rel. simpl in Hrel. lia.
Qed.

Lemma Iter_visits_the_node_and_its_children_only_witness :
  Iter [] quad3 (observer (fun pi' _ s => s ++ [pi'])) [] =
    Done [EvLock []; EvUnlock []] (quad3, [] ++ one_level [] quad3) /\
  forall rel, (2 <= List.length rel)%nat -> ~ In ([] ++ rel) (one_level [] quad3).
Proof.
  apply (Iter_visits_the_node_and_its_children_only [] quad3 []).
  reflexivity.
Defined.

(** X20.  A function handed to [Iter] must not call the locking methods of
    the node: [Iter] holds the node's exclusive lock while it calls [f], so
    with an [f] that calls [Count()] on its argument the call of [Iter]
    never returns, on any node. *)
Theorem Iter_with_a_visitor_calling_Count_never_returns
  (pi : path) (nt : NTree) (s : Z) :
  exists tr, Iter pi nt count_visitor s = Blocked tr /\
             (mutex nt = MuFree -> tr = [EvLock pi]).
Proof.
  unfold Iter, Lock. destruct (mutex nt) eqn:Em.
  - exists [EvLock pi]. split; [|reflexivity].
    unfold count_visitor, Count, RLock.
    cbn [on_node bind after set_mutex mutex app]. 
    destruct nt; reflexivity.
  - exists []. split; [reflexivity|discriminate].
Qed.

(** ** What [Add] leaves in place *)

Lemma Add_keeps_nodes (fuel : nat) :
  forall (pi0 : path) (nt : NTree) (pt : option Point) (tr : trace) (nt' : NTree)
         (e : option error),
    Add fuel pi0 nt pt = Done tr (nt', e) ->
    forall pi m, node_at nt pi = Some m ->
      exists m', node_at nt' pi = Some m' /\ center m' = center m /\ bounds m' = bounds m.
Proof.
  induction fuel as [|fuel IH]; intros pi0 nt pt tr nt' e HA pi m Hm; [discriminate|].
  cbn [Add] in HA.
  apply bind_Done in HA as (tr0 & r & tr1 & _ & HA & _).
  destruct r as [[|]|e0];
    try (inversion HA; subst; exists m; split; [exact Hm|split; reflexivity]).
  destruct pt as [q|]; [|discriminate].
  apply bind_Done in HA as (tr2 & nt1 & tr3 & EL & HA & _).
  unfold Lock in EL. destruct (mutex nt) eqn:Emu; [|discriminate].
  inversion EL; subst nt1 tr2. clear EL.
  destruct nt as [c b op ocs mu k]. unfold set_mutex in HA.
  cbn [center bounds p children mutex count] in HA.
  destruct ocs as [cs|].
  - (* the node has children *)
    assert (HA' :
      (child <- child_at cs (child_index 0 c (Coords q) 0) ;;
       r <- Add fuel (pi0 ++ [Z.to_nat (child_index 0 c (Coords q) 0)]) child (Some q) ;;
       nt <- match snd r with
             | None => incr_count pi0
                         (set_children (mkNTree c b op (Some cs) MuWrite k)
                            (Some (store_at cs (Z.to_nat (child_index 0 c (Coords q) 0))
                                     (Some (fst r)))))
             | Some _ => ret (set_children (mkNTree c b op (Some cs) MuWrite k)
                            (Some (store_at cs (Z.to_nat (child_index 0 c (Coords q) 0))
                                     (Some (fst r)))))
             end ;;
       nt <- Unlock pi0 nt ;; ret (nt, snd r)) = Done tr3 (nt', e))
      by (destruct op; exact HA).
    clear HA.
    apply bind_Done in HA' as (tr4 & child & tr5 & ECh & HA & _).
    apply child_at_Done in ECh as (_ & _ & Enth).
    apply bind_Done in HA as (tr6 & r & tr7 & ER & HA & _).
    assert (Hnt' : children nt' =
                   Some (store_at cs (Z.to_nat (child_index 0 c (Coords q) 0))
                           (Some (fst r))) /\
                   center nt' = c /\ bounds nt' = b).
    { destruct (snd r); cbn [incr_count ret bind after Unlock] in HA;
        inversion HA; subst; repeat split. }
    destruct Hnt' as (Hcs' & Hc' & Hb').
    destruct pi as [|i rest]; cbn [node_at] in Hm |- *.
    + inversion Hm; subst m. exists nt'. repeat split; assumption.
    + cbn [children] in Hm. rewrite Hcs'.
      destruct (nth_error cs i) as [[ch|]|] eqn:Ei; try discriminate.
      destruct (Nat.eq_dec (Z.to_nat (child_index 0 c (Coords q) 0)) i) as [<-|Hne].
      * rewrite (nth_error_store_at_same _ _ _ _ Enth).
        rewrite Ei in Enth. inversion Enth; subst ch.
        destruct r as [ch' e']. exact (IH _ _ _ _ _ _ ER rest m Hm).
      * rewrite (nth_error_store_at_other _ _ _ _ Hne), Ei.
        exists m. split; [exact Hm|split; reflexivity].
  - (* the node has no children *)
    assert (Hpi : pi = [] /\ m = mkNTree c b op None MuFree k).
    { destruct pi as [|i rest]; cbn [node_at children] in Hm; [|discriminate].
      inversion Hm; subst; cbn [mutex] in Emu; subst; auto. }
    destruct Hpi as [-> ->]. cbn [node_at].
    exists nt'. split; [reflexivity|]. cbn [center bounds].
    destruct op as [curP|].
    + apply bind_Done in HA as (tr4 & made & tr5 & _ & HA & _).
      destruct (snd made) as [e1|].
      * inversion HA; subst. split; reflexivity.
      * cbn [decr_count Unlock bind after] in HA.
        apply after_Done in HA as (tr6 & HA & _).
        apply after_Done in HA as (tr6' & HA & _).
        apply bind_Done in HA as (tr7 & [t1 e1] & tr8 & E1 & HA & _).
        destruct (IH _ _ _ _ _ _ E1 [] _ eq_refl) as (m1 & Hm1 & Hc1 & Hb1).
        cbn [node_at] in Hm1. inversion Hm1; subst m1.
        unfold set_mutex, set_count, set_p, set_children in Hc1, Hb1.
        cbn [center bounds] in Hc1, Hb1.
        cbn [fst snd] in HA. destruct e1 as [e1|].
        -- inversion HA; subst. split; reflexivity.
        -- destruct (IH _ _ _ _ _ _ HA [] _ eq_refl) as (m2 & Hm2 & Hc2 & Hb2).
           cbn [node_at] in Hm2. inversion Hm2; subst m2.
           split; congruence.
    + cbn [incr_count Unlock bind after ret] in HA. inversion HA; subst.
      split; reflexivity.
Qed.

(** X21.  [Add] takes no node away and moves none, whatever it returns and
    on whatever tree: every node of the tree before the call is a node of
    the tree after it, at the same place and with the same centre and
    bounds. *)
Theorem Add_keeps_every_node_and_its_box
  (fuel : nat) (t : NTree) (pt : option Point) (tr : trace) (t' : NTree)
  (e : option error) (pi : path) (m : NTree) :
  Add fuel [] t pt = Done tr (t', e) ->
  node_at t pi = Some m ->
  exists m', node_at t' pi = Some m' /\ center m' = center m /\ bounds m' = bounds m.
Proof. intros HA Hm. exact (Add_keeps_nodes fuel [] t pt tr t' e HA pi m Hm). Qed.

Lemma Add_keeps_every_node_and_its_box_witness :
  exists m', node_at quad3 [3%nat] = Some m' /\
             center m' = center (match node_at quad2 [3%nat] with Some m => m | None => quad2 end) /\
             bounds m' = bounds (match node_at quad2 [3%nat] with Some m => m | None => quad2 end).
Proof.
  apply (Add_keeps_every_node_and_its_box 8 quad2 (Some pC)
           (events (Add 8 [] quad2 (Some pC))) quad3 None [3%nat]).
  - vm_compute. reflexivity.
  - vm_compute. reflexivity.
Defined.

(** ** Every node is one that [New] accepts *)

Lemma New_Ok_eq (c b : list float) (t : NTree) :
  New c b = Ok t -> New c b = Ok (mkNTree c b None None MuFree 0).
Proof. intros H. destruct (New_Ok c b t H) as (-> & _). exact H. Qed.

Lemma make_children_New (nt : NTree) :
  forall (todo i0 : nat) (tr : trace) (cs : list (option NTree)),
    make_children nt i0 todo = Done tr (cs, None) ->
    forall d child, nth_error cs d = Some (Some child) -> newable_node child.
Proof.
  induction todo as [|todo IH]; intros i0 tr cs E d child Hd; simpl in E.
  - inversion E; subst. destruct d; discriminate.
  - apply bind_Done in E as (tr0 & box & tr1 & _ & E & _).
    destruct (New (fst box) (snd box)) as [ch|e] eqn:EN.
    + apply bind_Done in E as (tr2 & [cs' e'] & tr3 & EM & E & _).
      inversion E; subst. destruct d as [|d]; simpl in Hd.
      * inversion Hd; subst child. unfold newable_node.
        destruct (New_Ok _ _ _ EN) as (-> & _). cbn [center bounds].
        exact (New_Ok_eq _ _ _ EN).
      * exact (IH (S i0) tr2 cs' EM d child Hd).
    + inversion E.
Qed.

Lemma inserted_newable (n : nat) (pi : path) (t : NTree) (q : Point) (tr : trace)
  (t' : NTree) :
  inserted n pi t q tr t' -> all_nodes newable_node t -> all_nodes newable_node t'.
Proof.
  induction 1 as
    [pi c b k q Hc Hb Hq Hin
    |pi c b cs k q child tra ta Hc Hb Hcs Hq Hin Htarget Enth Hins IH
    |pi c b k curP q cs tra ta trb t' Hc Hb HcurP Hq Hin EM Hins1 IH1 Hins2 IH2];
    intros Hall.
  - apply all_nodes_intro.
    + exact (all_nodes_root _ _ Hall).
    + intros cs i ch E. discriminate.
  - apply all_nodes_intro.
    + exact (all_nodes_root _ _ Hall).
    + intros cs' i ch E Ei. cbn [children] in E. inversion E; subst cs'.
      destruct (Nat.eq_dec (Z.to_nat (child_index 0 c (Coords q) 0)) i) as [<-|Hne].
      * rewrite (nth_error_store_at_same _ _ _ _ Enth) in Ei. inversion Ei; subst ch.
        apply IH. eapply all_nodes_child; [exact Hall|reflexivity|exact Enth].
      * rewrite (nth_error_store_at_other _ _ _ _ Hne) in Ei.
        eapply all_nodes_child; [exact Hall|reflexivity|exact Ei].
  - apply IH2, IH1.
    apply (split_all_nodes _ c b k curP cs); [congruence|exact EM| |].
    + exact (all_nodes_root _ _ Hall).
    + intros i ch Ei. exact (make_children_New _ _ _ _ _ EM i ch Ei).
Qed.

Lemma built_newable (t : NTree) (ps : list Point) :
  built t ps -> all_nodes newable_node t.
Proof.
  induction 1 as [c b t HN|t ps fuel q tr t' Hb IH HA].
  - apply all_nodes_intro.
    + unfold newable_node. destruct (New_Ok _ _ _ HN) as (-> & _).
      cbn [center bounds]. exact (New_Ok_eq _ _ _ HN).
    + intros cs i ch E. destruct (New_Ok _ _ _ HN) as (-> & _). discriminate.
  - destruct (built_inv _ _ Hb) as (n & Hwf & _).
    apply (Add_inserted fuel [] n) in HA; [|exact Hwf].
    eapply inserted_newable; eassumption.
Qed.

Lemma first_nonpositive_None (bs : list float) :
  forall i, first_nonpositive i bs = None ->
            Forall (fun x => (x <=? 0)%float = false) bs.
Proof.
  induction bs as [|x bs IH]; intros i; simpl; [constructor|].
  destruct (x <=? 0)%float eqn:E; [discriminate|].
  intros H. constructor; [exact E|exact (IH _ H)].
Qed.

(** X22.  Every node of a built tree has a centre and bounds that [New]
    itself accepts: the children made by a split are made through [New], so
    at every depth what [Center()] and [Bounds()] return are vectors of the
    tree's dimension (between 1 and 63) that [New] takes without error, and
    no bound is zero or negative. *)
Theorem every_node_of_a_built_tree_passes_the_checks_of_New
  (t : NTree) (ps : list Point) (pi : path) (m : NTree) :
  built t ps -> node_at t pi = Some m ->
  exists c b,
    Center pi m = Done [EvRLock pi; EvRUnlock pi] c /\
    Bounds pi m = Done [EvRLock pi; EvRUnlock pi] b /\
    New c b = Ok (mkNTree c b None None MuFree 0) /\
    List.length c = N t /\ List.length b = N t /\ (1 <= N t <= MaxN)%nat /\
    Forall (fun x => (x <=? 0)%float = false) b.
Proof.
  intros Hb Hm.
  assert (HN := built_newable t ps Hb pi m Hm). unfold newable_node in HN.
  destruct (built_node t ps pi m Hb Hm) as (Hwf & Hn & _).
  assert (Hc := wf_center _ _ Hwf). assert (Hbd := wf_bounds _ _ Hwf).
  exists (center m), (bounds m).
  unfold Center, Bounds, RLock. rewrite (wf_mutex _ _ Hwf).
  split; [reflexivity|]. split; [reflexivity|]. split; [exact HN|].
  split; [exact Hc|]. split; [exact Hbd|]. split; [exact Hn|].
  unfold New in HN.
  destruct (MaxN <? List.length (center m))%nat; [discriminate|].
  destruct (negb _); [discriminate|].
  destruct (List.length (center m) =? 0)%nat; [discriminate|].
  destruct (first_nonpositive 0 (bounds m)) eqn:E; [discriminate|].
  exact (first_nonpositive_None _ _ E).
Qed.

Lemma every_node_of_a_built_tree_passes_the_checks_of_New_witness :
  exists c b,
    Center [3%nat] quad3_child3 = Done [EvRLock [3%nat]; EvRUnlock [3%nat]] c /\
    Bounds [3%nat] quad3_child3 = Done [EvRLock [3%nat]; EvRUnlock [3%nat]] b /\
    New c b = Ok (mkNTree c b None None MuFree 0) /\
    List.length c = N quad3 /\ List.length b = N quad3 /\ (1 <= N quad3 <= MaxN)%nat /\
    Forall (fun x => (x <=? 0)%float = false) b.
Proof.
  apply (every_node_of_a_built_tree_passes_the_checks_of_New quad3 [pC; pB; pA] [3%nat]).
  - exact built_quad3.
  - reflexivity.
Defined.

(** ** The first insertion *)

(** X23.  On a tree fresh from [New], [Add] returns nil exactly for the
    points for which [Contains] returns true; the tree then holds the point
    at its root, with a count of 1, and nothing else has changed. *)
Theorem first_Add_succeeds_exactly_when_Contains_accepts
  (c b : list float) (t : NTree) (q : Point) (fuel : nat) :
  New c b = Ok t ->
  (Contains [] t (Some q) = Done [EvRLock []; EvRUnlock []] (Ok true) <->
   exists tr t', Add (S fuel) [] t (Some q) = Done tr (t', None)) /\
  (forall tr t', Add (S fuel) [] t (Some q) = Done tr (t', None) ->
     t' = mkNTree c b (Some q) None MuFree 1 /\
     tr = [EvRLock []; EvRUnlock []; EvLock []; EvCount [] 0 1; EvUnlock []]).
Proof.
  intros HN. destruct (New_Ok _ _ _ HN) as (-> & Hl & _).
  assert (HC := Contains_free [] (mkNTree c b None None MuFree 0) q eq_refl Hl).
  cbn [Add]. rewrite HC. unfold N. cbn [center bounds].
  destruct (List.length (Coords q) =? List.length c)%nat; cbn [negb bind after ret].
  - destruct (inside c b (Coords q));
      cbn [Lock mutex set_mutex p children bind after ret app incr_count Unlock
           set_p set_count count center bounds fst snd].
    + split.
      * split; [intros _; eexists _, _; reflexivity|reflexivity].
      * intros tr t' H. inversion H; subst. split; reflexivity.
    + split.
      * split; [discriminate|intros (tr & t' & H); discriminate].
      * intros tr t' H. discriminate.
  - split.
    + split; [discriminate|intros (tr & t' & H); discriminate].
    + intros tr t' H. discriminate.
Qed.

Lemma first_Add_succeeds_exactly_when_Contains_accepts_witness :
  (Contains [] quad0 (Some pA) = Done [EvRLock []; EvRUnlock []] (Ok true) <->
   exists tr t', Add 1 [] quad0 (Some pA) = Done tr (t', None)) /\
  (forall tr t', Add 1 [] quad0 (Some pA) = Done tr (t', None) ->
     t' = mkNTree [0%float; 0%float] [1%float; 1%float] (Some pA) None MuFree 1 /\
     tr = [EvRLock []; EvRUnlock []; EvLock []; EvCount [] 0 1; EvUnlock []]).
Proof.
  apply (first_Add_succeeds_exactly_when_Contains_accepts
           [0%float; 0%float] [1%float; 1%float] quad0 pA 0).
  reflexivity.
Defined.

(** ** A split that fails *)

Lemma child_box_bounds (i : Z) (c : list float) :
  forall (j : nat) (b : list float),
    List.length b = List.length c ->
    exists cc, child_box i j c b = Done [] (cc, map (fun x => (x / 2)%float) b) /\
               List.length cc = List.length c.
Proof.
  induction c as [|c0 c IH]; intros j [|b0 b] Hl; simpl in Hl; try discriminate.
  - exists []. split; reflexivity.
  - destruct (IH (S j) b) as (cc & E & Hcc); [lia|].
    cbn [child_box]. rewrite E. cbn [bind after fst snd app].
    destruct (hasBit i j); cbn [ret after app map];
      eexists; (split; [reflexivity|simpl; lia]).
Qed.




(** ** Bounds by depth *)

Lemma shaped_child_bounds (n : nat) (m : NTree) (cs : list (option NTree)) (i : nat)
  (c : NTree) :
  wf n m -> shaped_node m -> children m = Some cs -> nth_error cs i = Some (Some c) ->
  bounds c = halved (bounds m).
Proof.
  intros Hwf Hs Ec Ei. destruct (Hs cs Ec) as [_ Hbox].
  specialize (Hbox i c Ei).
  destruct (child_box_bounds (Z.of_nat i) (center m) 0 (bounds m)) as (cc & E & _).
  - now rewrite (wf_center _ _ Hwf), (wf_bounds _ _ Hwf).
  - rewrite E in Hbox. inversion Hbox. reflexivity.
Qed.

Lemma bounds_by_depth (n : nat) (pi : path) :
  forall t m, wf n t -> all_nodes shaped_node t -> node_at t pi = Some m ->
    bounds m = Nat.iter (List.length pi) halved (bounds t).
Proof.
  induction pi as [|i pi IH]; intros t m Hwf Hall Hm; cbn [node_at] in Hm.
  - inversion Hm. reflexivity.
  - destruct (children t) as [cs|] eqn:Ec; [|discriminate].
    destruct (nth_error cs i) as [[ch|]|] eqn:Ei; try discriminate.
    assert (Hch : wf n ch).
    { apply (wf_node_at n [i] t ch Hwf). cbn [node_at]. now rewrite Ec, Ei. }
    rewrite (IH ch m Hch (all_nodes_child _ _ _ _ _ Hall Ec Ei) Hm).
    rewrite (shaped_child_bounds n t cs i ch Hwf (all_nodes_root _ _ Hall) Ec Ei).
    cbn [List.length]. now rewrite Nat.iter_succ_r.
Qed.

(** X25.  In a built tree the bounds of a node depend on its depth only:
    on the node at depth [d], [Bounds()] returns the bounds of the root
    halved [d] times, in every dimension and whichever children lead to the
    node. *)
Theorem bounds_of_a_node_are_the_root_bounds_halved_by_depth
  (t : NTree) (ps : list Point) (pi : path) (m : NTree) :
  built t ps -> node_at t pi = Some m ->
  Bounds pi m =
    Done [EvRLock pi; EvRUnlock pi] (Nat.iter (List.length pi) halved (bounds t)).
Proof.
  intros Hb Hm. destruct (built_inv _ _ Hb) as (n & Hwf & _).
  rewrite <- (bounds_by_depth n pi t m Hwf (built_shaped _ _ Hb) Hm).
  destruct (built_node t ps pi m Hb Hm) as (Hwfm & _).
  unfold Bounds, RLock. now rewrite (wf_mutex _ _ Hwfm).
Qed.

Lemma bounds_of_a_node_are_the_root_bounds_halved_by_depth_witness :
  Bounds [3%nat] quad3_child3 =
    Done [EvRLock [3%nat]; EvRUnlock [3%nat]]
         (Nat.iter (List.length [3%nat]) halved (bounds quad3)).
Proof.
  apply (bounds_of_a_node_are_the_root_bounds_halved_by_depth quad3 [pC; pB; pA]).
  - exact built_quad3.
  - reflexivity.
Defined.

(** ** Runs of [Add] without fault *)






